(** * Ground heat exchangers (EnergyPlus): g-function table, load history
      aggregation and the thermal response solver.

    Shallow embedding of [src/EnergyPlus/GroundHeatExchangers.cc].

    Numeric model.  [Real64] values are modelled by exact rationals [Q]
    (no rounding, no NaN, no infinities; [x / 0] is [0] as in [Qdiv]);
    [int] values by [Z].  The conversion [int( x )] of a [Real64]
    truncates toward zero.  The functions of <cmath> and the constant [Pi]
    are parameters of the development (class [Cmath]), and so are the fluid
    property look-ups of [FluidProperties] (class [Fluid]).

    Part I holds the embedding (definitions only), Part II the lemmas and
    the theorems about it. *)

From Stdlib Require Import ZArith QArith Qabs Qround List Bool String Lia Lqa.
From Stdlib Require Import Setoid Morphisms.
Import ListNotations.

Open Scope Q_scope.

(** * Part I: the embedding *)

(** ** Real64 and int helpers *)

Definition Qlt_bool (x y : Q) : bool := negb (Qle_bool y x).

(** [int( x )] for a [Real64] [x]: truncation toward zero. *)
Definition Qtrunc (x : Q) : Z := Z.quot (Qnum x) (Zpos (Qden x)).

(** Implicit conversion [int -> Real64]. *)
Definition to_real (z : Z) : Q := inject_Z z.

(** [mod( x, y )] of ObjexxFCL on [Real64]: [x - int( x / y ) * y]. *)
Definition mod_ (x y : Q) : Q := x - to_real (Qtrunc (x / y)) * y.

Definition pow_2 (x : Q) : Q := x * x.

(** [val % 2 == 0] *)
Definition isEven (val : Z) : bool := (Z.rem val 2 =? 0)%Z.

(** [std::ceil] *)
Definition ceil (x : Q) : Q := inject_Z (Qceiling x).

(** The transcendental functions of <cmath>, and [DataGlobals::Pi]. *)
Class Cmath := {
  ln : Q -> Q;            (* std::log *)
  log10 : Q -> Q;         (* std::log10 *)
  pow : Q -> Q -> Q;      (* std::pow *)
  sqrt : Q -> Q;          (* std::sqrt *)
  erfc : Q -> Q;          (* std::erfc *)
  cos : Q -> Q;           (* std::cos *)
  sin : Q -> Q;           (* std::sin *)
  Pi : Q
}.

(** [FluidProperties::Get...Glycol] at a temperature, for the fluid of the
    plant loop of the device. *)
Class Fluid := {
  GetSpecificHeatGlycol : Q -> Q;
  GetDensityGlycol : Q -> Q;
  GetViscosityGlycol : Q -> Q;
  GetConductivityGlycol : Q -> Q
}.

(** ** FArray1D: one-based arrays

    An [FArray1D] of size [n] is a list of length [n]; [a( i )] is the
    element of index [i] counted from 1.  A read outside [1..n] (undefined
    in the source) yields the default value, a write outside it does
    nothing. *)

Definition sub {A : Type} (d : A) (a : list A) (i : Z) : A :=
  if (i <? 1)%Z then d else nth (Z.to_nat (i - 1)) a d.

(** [eoshift( a, -1, b )]: every element moves one place up, the last one
    is dropped and [b] enters at index 1. *)
Definition eoshift {A : Type} (a : list A) (b : A) : list A :=
  match a with
  | [] => []
  | _ :: _ => b :: removelast a
  end.

Fixpoint upd_nat {A : Type} (a : list A) (n : nat) (v : A) : list A :=
  match a, n with
  | [], _ => []
  | _ :: t, O => v :: t
  | h :: t, S n' => h :: upd_nat t n' v
  end.

(** [a( i ) = v] *)
Definition upd {A : Type} (a : list A) (i : Z) (v : A) : list A :=
  if (i <? 1)%Z then a else upd_nat a (Z.to_nat (i - 1)) v.

(** [a = v]: every element of the array is set to [v]. *)
Definition fill {A : Type} (a : list A) (v : A) : list A := map (fun _ => v) a.

(** [a.allocate( n )] and [a.dimension( n, v )]; the elements of a freshly
    allocated array (indeterminate in the source) are taken to be [v]. *)
Definition dimension {A : Type} (n : Z) (v : A) : list A := repeat v (Z.to_nat n).

(** The integers [lo, lo+1, ..., lo+n-1]. *)
Fixpoint zrange (lo : Z) (n : nat) : list Z :=
  match n with
  | O => []
  | S n' => lo :: zrange (lo + 1) n'
  end.

(** The values taken by [i] in [for ( i = lo; i <= hi; ++i )]. *)
Definition for_range (lo hi : Z) : list Z := zrange lo (Z.to_nat (hi - lo + 1)).

(** [sum += term( i )] for [i] over a loop range, from [0.0]. *)
Definition sum_over (r : list Z) (term : Z -> Q) : Q :=
  fold_left (fun acc i => acc + term i) r 0.

(** ** Fatal errors

    [ShowFatalError] ends the run: nothing after it executes. *)

Inductive Outcome (A : Type) : Type :=
| Ok : A -> Outcome A
| Fatal : string -> Outcome A.

Arguments Ok {A} _.
Arguments Fatal {A} _.

Definition bind {A B : Type} (m : Outcome A) (k : A -> Outcome B) : Outcome B :=
  match m with
  | Ok a => k a
  | Fatal msg => Fatal msg
  end.

Notation "x <- m ;; k" := (bind m (fun x => k))
  (at level 61, m at next level, right associativity).

(** ** Module parameters *)

Definition hrsPerDay : Q := 24.
Definition hrsPerMonth : Q := 730.
Definition DeltaTempLimit : Q := 100.
Definition maxTSinHr : Z := 60.
Definition SecInHour : Q := 3600.

(** ** Device data *)

(** The dynamic type of a [GLHEBase] object. *)
Inductive GLHEKind : Type := Vert | Slinky.

(** Members read from input and left alone afterwards. *)
Record Params := mkParams {
  name : string;
  inletNodeNum : Z;
  outletNodeNum : Z;
  available : bool;
  on : bool;
  designFlow : Q;
  kGround : Q;
  cpRhoGround : Q;
  tempGround : Q;
  kPipe : Q;
  pipeOutDia : Q;
  pipeThick : Q;
  maxSimYears : Q;
  totalTubeLength : Q;
  diffusivityGround : Q;
  SubAGG : Z;
  AGG : Z;
  (* GLHEVert *)
  numBoreholes : Z;
  boreholeLength : Q;
  boreholeRadius : Q;
  kGrout : Q;
  UtubeDist : Q;
  gReferenceRatio : Q;
  (* GLHESlinky *)
  rhoPipe : Q;
  cpPipe : Q;
  verticalConfig : bool;
  coilDiameter : Q;
  coilPitch : Q;
  trenchDepth : Q;
  trenchLength : Q;
  numTrenches : Z;
  trenchSpacing : Q;
  numCoils : Z;
  coilDepth : Q;
  useGroundTempDataForKusuda : bool;
  averageGroundTemp : Q;
  averageGroundTempAmplitude : Q;
  phaseShiftOfMinGroundTempDays : Q;
  monthOfMinSurfTemp : Z;
  minSurfTemp : Q
}.

(** The g-function table: members [NPairs], [LNTTS], [GFNC]. *)
Record Table := mkTable {
  NPairs : Z;
  LNTTS : list Q;
  GFNC : list Q
}.

(** Ring centres of a slinky field: members [X0], [Y0], [Z0]. *)
Record Rings := mkRings {
  X0 : list Q;
  Y0 : list Q;
  Z0 : Q
}.

(** The load history of a device. *)
Record History := mkHistory {
  QnMonthlyAgg : list Q;
  QnHr : list Q;
  QnSubHr : list Q;
  LastHourN : list Z;
  prevHour : Z;
  lastQnSubHr : Q
}.

(** Members recomputed at every call, among them the reported values. *)
Record Vars := mkVars {
  massFlowRate : Q;
  designMassFlow : Q;
  timeSS : Q;
  timeSSFactor : Q;
  HXResistance : Q;
  inletTemp : Q;
  outletTemp : Q;
  boreholeTemp : Q;
  aveFluidTemp : Q;
  QGLHE : Q
}.

(** A device.  [gFuncRuns] and [responseRuns] are not members of the
    source: they count the completed calls of [calcGFunctions] and the
    thermal response computations of [calcGroundHeatExchanger] on this
    device, for the statements about call order. *)
Record GLHE := mkGLHE {
  kind : GLHEKind;
  par : Params;
  tbl : Table;
  rings : Rings;
  hist : History;
  vars : Vars;
  myFlag : bool;
  myEnvrnFlag : bool;
  gFuncRuns : nat;
  responseRuns : nat
}.

Definition set_tbl (d : GLHE) (t : Table) : GLHE :=
  mkGLHE (kind d) (par d) t (rings d) (hist d) (vars d) (myFlag d) (myEnvrnFlag d)
         (gFuncRuns d) (responseRuns d).

Definition set_rings (d : GLHE) (r : Rings) : GLHE :=
  mkGLHE (kind d) (par d) (tbl d) r (hist d) (vars d) (myFlag d) (myEnvrnFlag d)
         (gFuncRuns d) (responseRuns d).

Definition set_hist (d : GLHE) (h : History) : GLHE :=
  mkGLHE (kind d) (par d) (tbl d) (rings d) h (vars d) (myFlag d) (myEnvrnFlag d)
         (gFuncRuns d) (responseRuns d).

Definition set_vars (d : GLHE) (v : Vars) : GLHE :=
  mkGLHE (kind d) (par d) (tbl d) (rings d) (hist d) v (myFlag d) (myEnvrnFlag d)
         (gFuncRuns d) (responseRuns d).

Definition set_flags (d : GLHE) (f e : bool) : GLHE :=
  mkGLHE (kind d) (par d) (tbl d) (rings d) (hist d) (vars d) f e
         (gFuncRuns d) (responseRuns d).

Definition count_gFunc (d : GLHE) : GLHE :=
  mkGLHE (kind d) (par d) (tbl d) (rings d) (hist d) (vars d) (myFlag d) (myEnvrnFlag d)
         (S (gFuncRuns d)) (responseRuns d).

Definition count_response (d : GLHE) : GLHE :=
  mkGLHE (kind d) (par d) (tbl d) (rings d) (hist d) (vars d) (myFlag d) (myEnvrnFlag d)
         (gFuncRuns d) (S (responseRuns d)).

(** The module variables shared by all devices, and the [static] locals of
    [GLHEBase::calcGroundHeatExchanger] (one copy for all devices too). *)
Record Shared := mkShared {
  N : Z;
  currentSimTime : Q;
  locHourOfDay : Z;
  locDayOfSim : Z;
  prevTimeSteps : list Q;
  ToutNew : Q;
  PrevN : Z;
  updateCurSimTime : bool;
  triggerDesignDayReset : bool;
  firstTime : bool
}.

(** What a call reads from the rest of the program: the simulation clock of
    [DataGlobals] and [DataHVACGlobals], the inlet node and the answers of
    the plant utilities. *)
Record Env := mkEnv {
  DayOfSim : Z;
  HourOfDay : Z;
  TimeStep : Z;
  TimeStepZone : Q;
  SysTimeElapsed : Q;
  WarmupFlag : bool;
  BeginEnvrnFlag : bool;
  inletNodeTemp : Q;          (* Node( inletNodeNum ).Temp *)
  regulatedFlow : Q;          (* RegulateCondenserCompFlowReqOp, SetComponentFlowRate *)
  scanErrFlag : bool          (* errFlag of ScanPlantLoopsForObject *)
}.

Section Model.
Context {CM : Cmath} {FL : Fluid}.

(** ** [GLHEBase::interpGFunc] *)

Definition lntts (tb : Table) (i : Z) : Q := sub 0 (LNTTS tb) i.
Definition gfnc (tb : Table) (i : Z) : Q := sub 0 (GFNC tb) i.

(** The [while ( Low <= High )] binary search; the result is the pair
    [(Found, Mid)] at [LOOP_exit].  [fuel] bounds the number of iterations
    ([High - Low + 1] of them are always enough, see [search_fuel]). *)
Fixpoint search (tb : Table) (fuel : nat) (LnTTsVal : Q) (Low High Mid : Z)
  : bool * Z :=
  match fuel with
  | O => (false, Mid)
  | S fuel' =>
      if (Low <=? High)%Z then
        let Mid := Z.quot (Low + High) 2 in
        if Qlt_bool (lntts tb Mid) LnTTsVal then
          search tb fuel' LnTTsVal (Mid + 1) High Mid
        else if Qlt_bool LnTTsVal (lntts tb Mid) then
          search tb fuel' LnTTsVal Low (Mid - 1) Mid
        else (true, Mid)
      else (false, Mid)
  end.

(** The formula of the three interpolating returns: the line through the
    entries [i] and [j], written from entry [i]. *)
Definition through (tb : Table) (LnTTsVal : Q) (i j : Z) : Q :=
  ((LnTTsVal - lntts tb i) / (lntts tb j - lntts tb i)) * (gfnc tb j - gfnc tb i)
  + gfnc tb i.

(** [Mid] has no initial value in the source; on a table that is not
    empty the loop sets it before it is read. *)
Definition interpGFunc (tb : Table) (LnTTsVal : Q) : Q :=
  if Qle_bool LnTTsVal (lntts tb 1) then
    through tb LnTTsVal 1 2
  else if Qlt_bool (lntts tb (NPairs tb)) LnTTsVal then
    through tb LnTTsVal (NPairs tb) (NPairs tb - 1)
  else
    let '(Found, Mid) :=
      search tb (Z.to_nat (NPairs tb)) LnTTsVal 1 (NPairs tb) 0 in
    if Found then gfnc tb Mid
    else
      let Mid := if Qlt_bool (lntts tb Mid) LnTTsVal then (Mid + 1)%Z else Mid in
      through tb LnTTsVal Mid (Mid - 1).

(** ** Ring geometry of [GLHESlinky] *)

Definition x0 (d : GLHE) (n : Z) : Q := sub 0 (X0 (rings d)) n.
Definition y0 (d : GLHE) (m : Z) : Q := sub 0 (Y0 (rings d)) m.

Definition distance (d : GLHE) (m n m1 n1 : Z) (eta theta : Q) : Q :=
  let p := par d in
  let pipeOuterRadius := pipeOutDia p / 2 in
  let x := x0 d n + cos theta * (coilDiameter p / 2) in
  let y := y0 d m + sin theta * (coilDiameter p / 2) in
  let xIn := x0 d n1 + cos eta * (coilDiameter p / 2 - pipeOuterRadius) in
  let yIn := y0 d m1 + sin eta * (coilDiameter p / 2 - pipeOuterRadius) in
  let xOut := x0 d n1 + cos eta * (coilDiameter p / 2 + pipeOuterRadius) in
  let yOut := y0 d m1 + sin eta * (coilDiameter p / 2 + pipeOuterRadius) in
  if negb (verticalConfig p) then
    (1#2) * sqrt (pow_2 (x - xIn) + pow_2 (y - yIn))
    + (1#2) * sqrt (pow_2 (x - xOut) + pow_2 (y - yOut))
  else
    let z := Z0 (rings d) + sin theta * (coilDiameter p / 2) in
    let zIn := Z0 (rings d) + sin eta * (coilDiameter p / 2 - pipeOuterRadius) in
    let zOut := Z0 (rings d) + sin eta * (coilDiameter p / 2 + pipeOuterRadius) in
    (1#2) * sqrt (pow_2 (x - xIn) + pow_2 (y0 d m1 - y0 d m) + pow_2 (z - zIn))
    + (1#2) * sqrt (pow_2 (x - xOut) + pow_2 (y0 d m1 - y0 d m) + pow_2 (z - zOut)).

Definition distanceToFictRing (d : GLHE) (m n m1 n1 : Z) (eta theta : Q) : Q :=
  let p := par d in
  let pipeOuterRadius := pipeOutDia p / 2 in
  let x := x0 d n + cos theta * (coilDiameter p / 2) in
  let z := Z0 (rings d) + sin theta * (coilDiameter p / 2) + 2 * coilDepth p in
  let xIn := x0 d n1 + cos eta * (coilDiameter p / 2 - pipeOuterRadius) in
  let zIn := Z0 (rings d) + sin eta * (coilDiameter p / 2 - pipeOuterRadius) in
  let xOut := x0 d n1 + cos eta * (coilDiameter p / 2 + pipeOuterRadius) in
  let zOut := Z0 (rings d) + sin eta * (coilDiameter p / 2 + pipeOuterRadius) in
  (1#2) * sqrt (pow_2 (x - xIn) + pow_2 (y0 d m1 - y0 d m) + pow_2 (z - zIn))
  + (1#2) * sqrt (pow_2 (x - xOut) + pow_2 (y0 d m1 - y0 d m) + pow_2 (z - zOut)).

Definition distToCenter (d : GLHE) (m n m1 n1 : Z) : Q :=
  sqrt (pow_2 (x0 d n - x0 d n1) + pow_2 (y0 d m - y0 d m1)).

Definition nearFieldResponseFunction (d : GLHE) (m n m1 n1 : Z) (eta theta t : Q) : Q :=
  let p := par d in
  let distance1 := distance d m n m1 n1 eta theta in
  let sqrtAlphaT := sqrt (diffusivityGround p * t) in
  if negb (verticalConfig p) then
    let sqrtDistDepth := sqrt (pow_2 distance1 + 4 * pow_2 (coilDepth p)) in
    let errFunc1 := erfc ((1#2) * distance1 / sqrtAlphaT) in
    let errFunc2 := erfc ((1#2) * sqrtDistDepth / sqrtAlphaT) in
    errFunc1 / distance1 - errFunc2 / sqrtDistDepth
  else
    let distance2 := distanceToFictRing d m n m1 n1 eta theta in
    let errFunc1 := erfc ((1#2) * distance1 / sqrtAlphaT) in
    let errFunc2 := erfc ((1#2) * distance2 / sqrtAlphaT) in
    errFunc1 / distance1 - errFunc2 / distance2.

Definition midFieldResponseFunction (d : GLHE) (m n m1 n1 : Z) (t : Q) : Q :=
  let p := par d in
  let sqrtAlphaT := sqrt (diffusivityGround p * t) in
  let distance := distToCenter d m n m1 n1 in
  let sqrtDistDepth := sqrt (pow_2 distance + 4 * pow_2 (coilDepth p)) in
  let errFunc1 := erfc ((1#2) * distance / sqrtAlphaT) in
  let errFunc2 := erfc ((1#2) * sqrtDistDepth / sqrtAlphaT) in
  4 * pow_2 Pi * errFunc1 / distance - errFunc2 / sqrtDistDepth.

(** The node weights of Simpson's 1/3 rule: 1 at both ends, 4 at the even
    nodes, 2 at the other odd ones. *)
Definition simpson (j J0 : Z) (f : Q) : Q :=
  if ((j =? 1) || (j =? J0))%Z then f
  else if isEven j then 4 * f
  else 2 * f.

Definition integral (d : GLHE) (m n m1 n1 : Z) (t eta : Q) (J0 : Z) : Q :=
  let theta1 := 0 in
  let theta2 := 2 * Pi in
  let h := (theta2 - theta1) / (to_real J0 - 1) in
  let sumIntF :=
    sum_over (for_range 1 J0) (fun j =>
      let theta := theta1 + to_real (j - 1) * h in
      simpson j J0 (nearFieldResponseFunction d m n m1 n1 eta theta t)) in
  (h / 3) * sumIntF.

Definition doubleIntegral (d : GLHE) (m n m1 n1 : Z) (t : Q) (I0 J0 : Z) : Q :=
  let eta1 := 0 in
  let eta2 := 2 * Pi in
  let h := (eta2 - eta1) / to_real (I0 - 1) in
  let sumIntF :=
    sum_over (for_range 1 I0) (fun i =>
      let eta := eta1 + to_real (i - 1) * h in
      simpson i I0 (integral d m n m1 n1 t eta J0)) in
  (h / 3) * sumIntF.

(** ** [GLHESlinky::calcGFunctions] *)

(** [valStored]: an [FArray2D] over [0..numTrenches] x [0..numCoils], as a
    function of the two indices. *)
Definition Stored := Z -> Z -> Q.

Definition store (vs : Stored) (i j : Z) (v : Q) : Stored :=
  fun i' j' => if ((i' =? i) && (j' =? j))%Z then v else vs i' j'.

(** "due to symmetry, the temperature response of ring(n1, m1) should be
    0.25, 0.5, or 1 times its calculated value" *)
Definition symmetryFactor (d : GLHE) (numRC numLC m1 n1 : Z) : Q :=
  let p := par d in
  let moreThanOne := Qlt_bool (3#2) (to_real (numTrenches p)) in
  if negb (isEven (numTrenches p)) && negb (isEven (numCoils p))
     && (m1 =? numRC)%Z && (n1 =? numLC)%Z && moreThanOne then 1#4
  else if negb (isEven (numTrenches p)) && (m1 =? numRC)%Z && moreThanOne then 1#2
  else if negb (isEven (numCoils p)) && (n1 =? numLC)%Z then 1#2
  else 1.

(** The node counts [(I0, J0)] chosen for a pair of rings. *)
Definition nodes (m n m1 n1 : Z) : Z * Z :=
  if ((m1 =? m) && (n1 =? n))%Z then (33, 1089)%Z else (33, 561)%Z.

(** The body of the innermost loop up to [gFunc += gFuncin]: the
    contribution [gFuncin] of the ring [(m1, n1)] at the ring [(m, n)] and
    the table of stored values after it. *)
Definition ringContribution (d : GLHE) (numRC numLC : Z) (t : Q)
  (valStored : Stored) (m1 n1 m n : Z) : Q * Stored :=
  let p := par d in
  let disRing := distToCenter d m n m1 n1 in
  let mm1 := Z.abs (m - m1) in
  let nn1 := Z.abs (n - n1) in
  let '(I0, J0) := nodes m n m1 n1 in
  if Qle_bool disRing ((5#2) + coilDiameter p) then
    if Qlt_bool (valStored mm1 nn1) 0 then
      let doubleIntegralVal := doubleIntegral d m n m1 n1 t I0 J0 in
      (symmetryFactor d numRC numLC m1 n1 * doubleIntegralVal,
       store valStored mm1 nn1 doubleIntegralVal)
    else
      (symmetryFactor d numRC numLC m1 n1 * valStored mm1 nn1, valStored)
  else if Qlt_bool (10 + coilDiameter p) disRing then
    (0, valStored)
  else
    if Qlt_bool (valStored mm1 nn1) 0 then
      let midFieldVal := midFieldResponseFunction d m n m1 n1 t in
      (symmetryFactor d numRC numLC m1 n1 * midFieldVal,
       store valStored mm1 nn1 midFieldVal)
    else
      (symmetryFactor d numRC numLC m1 n1 * valStored mm1 nn1, valStored).

(** The four nested loops over [m1], [n1], [m], [n]; the state is
    [(gFunc, valStored)]. *)
Definition ringStep (d : GLHE) (numRC numLC : Z) (t : Q) (m1 n1 m : Z)
  (st : Q * Stored) (n : Z) : Q * Stored :=
  let '(gFuncin, vs) := ringContribution d numRC numLC t (snd st) m1 n1 m n in
  (fst st + gFuncin, vs).

Definition fieldResponse (d : GLHE) (numRC numLC : Z) (t : Q) : Q * Stored :=
  let p := par d in
  fold_left (fun st m1 =>
    fold_left (fun st n1 =>
      fold_left (fun st m =>
        fold_left (ringStep d numRC numLC t m1 n1 m)
                  (for_range 1 (numCoils p)) st)
        (for_range 1 (numTrenches p)) st)
      (for_range 1 numLC) st)
    (for_range 1 numRC) (0, fun _ _ => -(1)).

Definition convertYearsToSeconds : Q := to_real (356 * 24 * 60 * 60).
Definition tLg_min : Q := -(2).
Definition tLg_grid : Q := 1#4.
Definition ts : Q := 3600.

Definition tLg_max (p : Params) : Q :=
  log10 (maxSimYears p * convertYearsToSeconds / ts).

(** The log-time of grid point [NT]. *)
Definition tLg (NT : Z) : Q := tLg_min + tLg_grid * to_real (NT - 1).

(** One turn of the loop over [NT]: the entry [NT] of both table columns. *)
Definition gridPoint (d : GLHE) (numRC numLC : Z) (fraction : Q)
  (cols : list Q * list Q) (NT : Z) : list Q * list Q :=
  let p := par d in
  let t := pow 10 (tLg NT) * ts in
  let gFunc := fst (fieldResponse d numRC numLC t) in
  (upd (fst cols) NT (tLg NT),
   upd (snd cols) NT
       ((gFunc * (coilDiameter p / 2))
        / (4 * Pi * fraction * to_real (numTrenches p) * to_real (numCoils p)))).

Definition calcGFunctions_Slinky (d : GLHE) : GLHE :=
  let p := par d in
  let SubAGG : Q := 15 in
  let AGG : Q := 192 in
  let NPairs := Qtrunc ((tLg_max p - tLg_min) / tLg_grid + 1) in
  let h := mkHistory
             (dimension (Qtrunc (maxSimYears p * 12)) 0)
             (dimension (Qtrunc (730 + AGG + SubAGG)) 0)
             (dimension (Qtrunc ((SubAGG + 1) * to_real maxTSinHr + 1)) 0)
             (dimension (Qtrunc (SubAGG + 1)) 0%Z)
             (prevHour (hist d)) (lastQnSubHr (hist d)) in
  let numLC := Qtrunc (ceil (to_real (numCoils p) / 2)) in
  let numRC := Qtrunc (ceil (to_real (numTrenches p) / 2)) in
  let r := mkRings
             (map (fun coil => coilPitch p * to_real (coil - 1)) (for_range 1 (numCoils p)))
             (map (fun trench => to_real (trench - 1) * trenchSpacing p)
                  (for_range 1 (numTrenches p)))
             (coilDepth p) in
  let d := set_rings (set_hist d h) r in
  let fraction := if (1 <? numTrenches p)%Z then 1#4 else 1#2 in
  let cols := fold_left (gridPoint d numRC numLC fraction) (for_range 1 NPairs)
                        (dimension NPairs 0, dimension NPairs 0) in
  set_tbl d (mkTable NPairs (fst cols) (snd cols)).

(** [GLHEVert::calcGFunctions] is an empty stub. *)
Definition calcGFunctions (d : GLHE) : GLHE :=
  count_gFunc
    match kind d with
    | Vert => d
    | Slinky => calcGFunctions_Slinky d
    end.

(** ** [getAnnualTimeConstant] and [calcHXResistance] (virtual) *)

Definition getAnnualTimeConstant (d : GLHE) : GLHE :=
  let p := par d in
  let v := vars d in
  let '(tSS, tSSFactor) :=
    match kind d with
    | Vert =>
        let tSS := (pow_2 (boreholeLength p) / (9 * diffusivityGround p))
                   / SecInHour / 8760 in
        (tSS, tSS * 8760)
    | Slinky =>
        ((pow_2 (totalTubeLength p) / (9 * diffusivityGround p)) / SecInHour / 8760,
         1)
    end in
  set_vars d (mkVars (massFlowRate v) (designMassFlow v) tSS tSSFactor
                     (HXResistance v) (inletTemp v) (outletTemp v)
                     (boreholeTemp v) (aveFluidTemp v) (QGLHE v)).

(** Convection resistance of one pipe, for the flow [mdot] through it. *)
Definition convectionResistance (d : GLHE) (mdot : Q) : Q :=
  let p := par d in
  let T := inletTemp (vars d) in
  let cpFluid := GetSpecificHeatGlycol T in
  let kFluid := GetConductivityGlycol T in
  let fluidDensity := GetDensityGlycol T in
  let fluidViscosity := GetViscosityGlycol T in
  let pipeOuterRad := pipeOutDia p / 2 in
  let pipeInnerRad := pipeOuterRad - pipeThick p in
  let pipeInnerDia := 2 * pipeInnerRad in
  if Qeq_bool mdot 0 then 0
  else
    let reynoldsNum :=
      fluidDensity * pipeInnerDia
      * (mdot / fluidDensity / (Pi * pow_2 pipeInnerRad)) / fluidViscosity in
    let prandtlNum := (cpFluid * fluidViscosity) / kFluid in
    let nusseltNum := (23#1000) * pow reynoldsNum (8#10) * pow prandtlNum (35#100) in
    let hci := nusseltNum * kFluid / pipeInnerDia in
    1 / (2 * Pi * pipeInnerDia * hci).

(** Conduction resistance of the pipe wall ("pipe in parallel so /2"). *)
Definition conductionResistance (d : GLHE) : Q :=
  let p := par d in
  let pipeOuterRad := pipeOutDia p / 2 in
  let pipeInnerRad := pipeOuterRad - pipeThick p in
  ln (pipeOuterRad / pipeInnerRad) / (2 * Pi * kPipe p) / 2.

(** Grout resistance of a borehole: the four curve-fit regimes. *)
Definition groutResistance (d : GLHE) : Q :=
  let p := par d in
  let pipeOuterRad := pipeOutDia p / 2 in
  let maxDistance := 2 * boreholeRadius p - (2 * pipeOutDia p) in
  let distanceRatio := UtubeDist p / maxDistance in
  let '(B0, B1) :=
    if Qle_bool 0 distanceRatio && Qle_bool distanceRatio (1#4) then
      (14450872#1000000, -(8176#10000))
    else if Qlt_bool (1#4) distanceRatio && Qlt_bool distanceRatio (1#2) then
      (20100377#1000000, -(94467#100000))
    else if Qle_bool (1#2) distanceRatio && Qle_bool distanceRatio (3#4) then
      (1744268#100000, -(605154#1000000))
    else
      (2190587#100000, -(3796#10000)) in
  1 / (kGrout p * (B0 * pow (boreholeRadius p / pipeOuterRad) B1)).

Definition calcHXResistance (d : GLHE) : GLHE :=
  let p := par d in
  let v := vars d in
  let R :=
    match kind d with
    | Vert =>
        let BholeMdot := massFlowRate v / to_real (numBoreholes p) in
        conductionResistance d + convectionResistance d BholeMdot + groutResistance d
    | Slinky =>
        let singleSlinkyMassFlowRate := massFlowRate v / to_real (numTrenches p) in
        conductionResistance d + convectionResistance d singleSlinkyMassFlowRate
    end in
  set_vars d (mkVars (massFlowRate v) (designMassFlow v) (timeSS v) (timeSSFactor v)
                     R (inletTemp v) (outletTemp v)
                     (boreholeTemp v) (aveFluidTemp v) (QGLHE v)).

(** ** [GLHEBase::calcAggregateLoad] *)

Definition pts (sh : Shared) (i : Z) : Q := sub 0 (prevTimeSteps sh) i.
Definition qnSubHr (h : History) (i : Z) : Q := sub 0 (QnSubHr h) i.
Definition qnHr (h : History) (i : Z) : Q := sub 0 (QnHr h) i.
Definition qnMonthlyAgg (h : History) (i : Z) : Q := sub 0 (QnMonthlyAgg h) i.
Definition lastHourN (h : History) (i : Z) : Z := sub 0%Z (LastHourN h) i.

(** The value of the loop variable [J] after
    [for ( J = 1; J <= n; ++J )]. *)
Definition J_final (n : Z) : Z := (1 + Z.of_nat (Z.to_nat n))%Z.

(** The sum accumulated by the hourly loop, before the division. *)
Definition subHourlyEnergy (sh : Shared) (h : History) : Q :=
  sum_over (for_range 1 (N sh - lastHourN h 1))
           (fun J => qnSubHr h J * Qabs (pts sh J - pts sh (J + 1))).

(** [SumQnHr] as it is pushed into [QnHr]. *)
Definition SumQnHr (sh : Shared) (h : History) : Q :=
  subHourlyEnergy sh h
  / Qabs (pts sh 1 - pts sh (J_final (N sh - lastHourN h 1))).

Definition SumQnMonth (h : History) : Q :=
  sum_over (for_range 1 (Qtrunc hrsPerMonth)) (fun J => qnHr h J) / hrsPerMonth.

Definition calcAggregateLoad (sh : Shared) (h : History) : History :=
  if Qle_bool (currentSimTime sh) 0 then h
  else
    let newHour := negb (prevHour h =? locHourOfDay sh)%Z in
    (* FOR EVERY HOUR UPDATE THE HOURLY QN *)
    let h1 :=
      if newHour then
        mkHistory (QnMonthlyAgg h) (eoshift (QnHr h) (SumQnHr sh h)) (QnSubHr h)
                  (eoshift (LastHourN h) (N sh)) (prevHour h) (lastQnSubHr h)
      else h in
    (* CHECK IF A MONTH PASSES... *)
    let h2 :=
      if Qeq_bool
           (mod_ (to_real (locDayOfSim sh - 1) * hrsPerDay + to_real (locHourOfDay sh))
                 hrsPerMonth) 0
         && newHour then
        let MonthNum :=
          Qtrunc ((to_real (locDayOfSim sh) * hrsPerDay + to_real (locHourOfDay sh))
                  / hrsPerMonth) in
        mkHistory (upd (QnMonthlyAgg h1) MonthNum (SumQnMonth h1)) (QnHr h1) (QnSubHr h1)
                  (LastHourN h1) (prevHour h1) (lastQnSubHr h1)
      else h1 in
    if newHour then
      mkHistory (QnMonthlyAgg h2) (QnHr h2) (QnSubHr h2) (LastHourN h2)
                (locHourOfDay sh) (lastQnSubHr h2)
    else h2.

(** ** [GLHEBase::calcGroundHeatExchanger] *)

(** [gFuncVal / kGroundFactor] at the elapsed time [dt]:
    [XI = std::log( dt / timeSSFactor )], [gFuncVal = interpGFunc( XI )]. *)
Definition RQ (d : GLHE) (kGroundFactor dt : Q) : Q :=
  let XI := ln (dt / timeSSFactor (vars d)) in
  let gFuncVal := interpGFunc (tbl d) XI in
  gFuncVal / kGroundFactor.

(** What the solver hands over to the report variables:
    [tmpQnSubHourly], [fluidAveTemp], [ToutNew] and [sumTotal]. *)
Record Solution := mkSolution {
  tmpQnSubHourly : Q;
  fluidAveTemp : Q;
  ToutNew_ : Q;
  sumTotal : Q
}.

(** The branch [N == 1]. *)
Definition firstStep (sh : Shared) (d : GLHE) (cpFluid kGroundFactor : Q) : Solution :=
  let p := par d in
  let v := vars d in
  if Qle_bool (massFlowRate v) 0 then
    mkSolution 0 (tempGround p) (inletTemp v) 0
  else
    let XI := ln (currentSimTime sh / timeSSFactor v) in
    let gFuncVal := interpGFunc (tbl d) XI in
    let C_1 := totalTubeLength p / (2 * massFlowRate v * cpFluid) in
    let q := (tempGround p - inletTemp v)
             / (gFuncVal / kGroundFactor + HXResistance v + C_1) in
    mkSolution q
               (tempGround p - q * HXResistance v)
               (tempGround p - q * (gFuncVal / kGroundFactor + HXResistance v - C_1))
               0.

(** The sub-hourly and hourly superposition of the branch without monthly
    aggregation ([SUBHRLY_LOOP], [HOURLY_LOOP]). *)
Definition sumTotal_noAggregation (sh : Shared) (d : GLHE) (kGroundFactor : Q) : Q :=
  let p := par d in
  let h := hist d in
  let t := currentSimTime sh in
  let IndexN := if (Qtrunc t <? SubAGG p)%Z then (Qtrunc t + 1)%Z
                else (SubAGG p + 1)%Z in
  let subHourlyLimit := (N sh - lastHourN h IndexN)%Z in
  let sumQnSubHourly :=
    sum_over (for_range 1 subHourlyLimit) (fun I =>
      let RQSubHr := RQ d kGroundFactor (t - pts sh (I + 1)) in
      if (I =? subHourlyLimit)%Z then
        if (SubAGG p <=? Qtrunc t)%Z then (qnSubHr h I - qnHr h IndexN) * RQSubHr
        else qnSubHr h I * RQSubHr
      else (qnSubHr h I - qnSubHr h (I + 1)) * RQSubHr) in
  let hourlyLimit := Qtrunc t in
  let sumQnHourly :=
    sum_over (for_range (SubAGG p + 1) hourlyLimit) (fun I =>
      if (I =? hourlyLimit)%Z then
        qnHr h I * RQ d kGroundFactor t
      else
        (qnHr h I - qnHr h (I + 1))
        * RQ d kGroundFactor (t - to_real (Qtrunc t) + to_real I)) in
  sumQnSubHourly + sumQnHourly.

(** The monthly, hourly and sub-hourly superposition of the branch with
    monthly aggregation ([SUMMONTHLY], [HOURLYLOOP], [SUBHRLOOP]). *)
Definition sumTotal_aggregation (sh : Shared) (d : GLHE) (kGroundFactor : Q) : Q :=
  let p := par d in
  let h := hist d in
  let t := currentSimTime sh in
  let numOfMonths := Qtrunc ((t + 1) / hrsPerMonth) in
  let currentMonth :=
    if Qlt_bool t (to_real numOfMonths * hrsPerMonth + to_real (AGG p) + to_real (SubAGG p))
    then (numOfMonths - 1)%Z else numOfMonths in
  let sumQnMonthly :=
    sum_over (for_range 1 currentMonth) (fun I =>
      if (I =? 1)%Z then
        qnMonthlyAgg h I * RQ d kGroundFactor t
      else
        (qnMonthlyAgg h I - qnMonthlyAgg h (I - 1))
        * RQ d kGroundFactor (t - to_real (I - 1) * hrsPerMonth)) in
  let hourlyLimit := Qtrunc (t - to_real currentMonth * hrsPerMonth) in
  let sumQnHourly :=
    sum_over (for_range (1 + SubAGG p) hourlyLimit) (fun I =>
      let RQHour := RQ d kGroundFactor (t - to_real (Qtrunc t) + to_real I) in
      if (I =? hourlyLimit)%Z then (qnHr h I - qnMonthlyAgg h currentMonth) * RQHour
      else (qnHr h I - qnHr h (I + 1)) * RQHour) in
  let subHourlyLimit := (N sh - lastHourN h (SubAGG p + 1))%Z in
  let sumQnSubHourly :=
    sum_over (for_range 1 subHourlyLimit) (fun I =>
      let RQSubHr := RQ d kGroundFactor (t - pts sh (I + 1)) in
      if (I =? subHourlyLimit)%Z then (qnSubHr h I - qnHr h (SubAGG p + 1)) * RQSubHr
      else (qnSubHr h I - qnSubHr h (I + 1)) * RQSubHr) in
  sumQnMonthly + sumQnHourly + sumQnSubHourly.

(** The end of both superposition branches: the response to the load of the
    last time step, then either the zero-flow shortcut or "Dr.Spitler's
    Explicit set of equations". *)
Definition explicitSolve (sh : Shared) (d : GLHE) (cpFluid kGroundFactor sumTotal : Q)
  : Solution :=
  let p := par d in
  let v := vars d in
  let h := hist d in
  let RQSubHr := RQ d kGroundFactor (currentSimTime sh - pts sh 2) in
  if Qle_bool (massFlowRate v) 0 then
    mkSolution 0 (tempGround p - sumTotal) (inletTemp v) sumTotal
  else
    let C0 := RQSubHr in
    let C1 := tempGround p - (sumTotal - qnSubHr h 1 * RQSubHr) in
    let C2 := totalTubeLength p / (2 * massFlowRate v * cpFluid) in
    let C3 := massFlowRate v * cpFluid / totalTubeLength p in
    let q := (C1 - inletTemp v) / (HXResistance v + C0 - C2 + (1 / C3)) in
    mkSolution q
               (C1 - (C0 + HXResistance v) * q)
               (C1 + (C2 - C0 - HXResistance v) * q)
               sumTotal.

(** The branch [N != 1]. *)
Definition superposition (sh : Shared) (d : GLHE) (cpFluid kGroundFactor : Q) : Solution :=
  let p := par d in
  if Qlt_bool (currentSimTime sh) (hrsPerMonth + to_real (AGG p) + to_real (SubAGG p)) then
    explicitSolve sh d cpFluid kGroundFactor (sumTotal_noAggregation sh d kGroundFactor)
  else
    explicitSolve sh d cpFluid kGroundFactor (sumTotal_aggregation sh d kGroundFactor).

Definition solve (sh : Shared) (d : GLHE) (cpFluid kGroundFactor : Q) : Solution :=
  if (N sh =? 1)%Z then firstStep sh d cpFluid kGroundFactor
  else superposition sh d cpFluid kGroundFactor.

(** The elapsed simulation time in hours, from the clock. *)
Definition simTime (e : Env) : Q :=
  to_real ((DayOfSim e - 1) * 24 + HourOfDay e - 1)
  + to_real (TimeStep e - 1) * TimeStepZone e + SysTimeElapsed e.

Definition set_inletTemp (d : GLHE) (T : Q) : GLHE :=
  let v := vars d in
  set_vars d (mkVars (massFlowRate v) (designMassFlow v) (timeSS v) (timeSSFactor v)
                     (HXResistance v) T (outletTemp v)
                     (boreholeTemp v) (aveFluidTemp v) (QGLHE v)).

Definition set_outletTemp (d : GLHE) (T : Q) : GLHE :=
  let v := vars d in
  set_vars d (mkVars (massFlowRate v) (designMassFlow v) (timeSS v) (timeSSFactor v)
                     (HXResistance v) (inletTemp v) T
                     (boreholeTemp v) (aveFluidTemp v) (QGLHE v)).

(** [prevTimeSteps = ...] *)
Definition set_shared (sh : Shared) (pts : list Q) : Shared :=
  mkShared (N sh) (currentSimTime sh) (locHourOfDay sh) (locDayOfSim sh) pts
           (ToutNew sh) (PrevN sh) (updateCurSimTime sh) (triggerDesignDayReset sh)
           (firstTime sh).

(** The history reset of day one: every array of the history is zeroed,
    [LastHourN = 1]. *)
Definition resetHistory (h : History) : History :=
  mkHistory (fill (QnMonthlyAgg h) 0) (fill (QnHr h) 0) (fill (QnSubHr h) 0)
            (fill (LastHourN h) 1%Z) (prevHour h) (lastQnSubHr h).

(** The call is cut in four parts, in the order of the source.

    First part, up to the test of [currentSimTime]: the one-time g-function
    calculation, the inlet temperature, the time constant, the reset of day
    one and the clock. *)
Definition advanceClock (e : Env) (sh : Shared) (d : GLHE) : Shared * GLHE :=
  (* Calculate G-Functions *)
  let d := if firstTime sh then calcGFunctions d else d in
  let d := set_inletTemp d (inletNodeTemp e) in
  let d := getAnnualTimeConstant d in
  let upd1 := if triggerDesignDayReset sh && WarmupFlag e then true
              else updateCurSimTime sh in
  let reset := (DayOfSim e =? 1)%Z && upd1 in
  let d := if reset then set_hist d (resetHistory (hist d)) else d in
  let pts0 := if reset then fill (prevTimeSteps sh) 0 else prevTimeSteps sh in
  let N0 := if reset then 1%Z else N sh in
  let upd2 := if reset then false else upd1 in
  let trig2 := if reset then false else triggerDesignDayReset sh in
  let t := simTime e in
  let locHour := Qtrunc (mod_ t hrsPerDay + 1) in
  let locDay := Qtrunc (t / 24 + 1) in
  let upd3 := if (1 <? DayOfSim e)%Z then true else upd2 in
  let trig3 := if negb (WarmupFlag e) then true else trig2 in
  (mkShared N0 t locHour locDay pts0 (ToutNew sh) (PrevN sh) upd3 trig3 false, d).

(** Second part, for [currentSimTime > 0]: the new time step enters the
    histories ("Store currentSimTime in prevTimeSteps only if a time step
    occurs"), the loads are aggregated and the resistance is updated. *)
Definition pushStep (sh : Shared) (d : GLHE) : Shared * GLHE :=
  let t := currentSimTime sh in
  let newStep := negb (Qeq_bool (pts sh 1) t) in
  let pts1 := if newStep then eoshift (prevTimeSteps sh) t else prevTimeSteps sh in
  let N1 := if newStep then (N sh + 1)%Z else N sh in
  let shifted := negb (N1 =? PrevN sh)%Z in
  let PrevN1 := if shifted then N1 else PrevN sh in
  let h := hist d in
  let d := if shifted then
             set_hist d (mkHistory (QnMonthlyAgg h) (QnHr h)
                                   (eoshift (QnSubHr h) (lastQnSubHr h))
                                   (LastHourN h) (prevHour h) (lastQnSubHr h))
           else d in
  let sh1 := mkShared N1 t (locHourOfDay sh) (locDayOfSim sh) pts1 (ToutNew sh) PrevN1
                      (updateCurSimTime sh) (triggerDesignDayReset sh) (firstTime sh) in
  let d := set_hist d (calcAggregateLoad sh1 (hist d)) in
  (* Update the heat exchanger resistance each time *)
  (sh1, calcHXResistance d).

(** Last part: the solution goes to the report variables. *)
Definition report (s : Solution) (sh : Shared) (d : GLHE) : Shared * GLHE :=
  let p := par d in
  let v := vars d in
  let h := hist d in
  let d := set_vars d (mkVars (massFlowRate v) (designMassFlow v) (timeSS v)
                              (timeSSFactor v) (HXResistance v) (inletTemp v)
                              (ToutNew_ s) (tempGround p - sumTotal s)
                              (fluidAveTemp s)
                              (tmpQnSubHourly s * totalTubeLength p)) in
  let d := set_hist d (mkHistory (QnMonthlyAgg h) (QnHr h) (QnSubHr h) (LastHourN h)
                                 (prevHour h) (tmpQnSubHourly s)) in
  (mkShared (N sh) (currentSimTime sh) (locHourOfDay sh) (locDayOfSim sh)
            (prevTimeSteps sh) (ToutNew_ s) (PrevN sh) (updateCurSimTime sh)
            (triggerDesignDayReset sh) (firstTime sh),
   count_response d).

(** The early return for [currentSimTime <= 0]. *)
Definition inactive (sh : Shared) (d : GLHE) : Shared * GLHE :=
  let sh' := set_shared sh (fill (prevTimeSteps sh) 0) in
  let d := set_outletTemp d (inletTemp (vars d)) in
  (sh', set_hist d (calcAggregateLoad sh' (hist d))).

Definition kGroundFactor (d : GLHE) : Q := 2 * Pi * kGround (par d).

Definition calcGroundHeatExchanger (e : Env) (sh : Shared) (d : GLHE) : Shared * GLHE :=
  let '(sh0, d0) := advanceClock e sh d in
  let cpFluid := GetSpecificHeatGlycol (inletTemp (vars d0)) in
  if Qle_bool (currentSimTime sh0) 0 then inactive sh0 d0
  else
    let '(sh1, d1) := pushStep sh0 d0 in
    report (solve sh1 d1 cpFluid (kGroundFactor d1)) sh1 d1.

(** ** [initGLHESimVars] and [GLHEBase::updateGHX] *)

(** The two versions differ in the component type they look for and in the
    node temperatures they set, both outside this model. *)
Definition initGLHESimVars (e : Env) (sh : Shared) (d : GLHE) : Outcome (Shared * GLHE) :=
  if myFlag d && scanErrFlag e then
    Fatal "initGLHESimVars: Program terminated due to previous condition(s)."
  else
    let d := set_flags d false (myEnvrnFlag d) in
    let begin := myEnvrnFlag d && BeginEnvrnFlag e in
    let v := vars d in
    let h := hist d in
    let designMassFlow' :=
      if begin then designFlow (par d) * GetDensityGlycol 20 else designMassFlow v in
    let h' :=
      if begin then
        mkHistory (fill (QnMonthlyAgg h) 0) (fill (QnHr h) 0) (fill (QnSubHr h) 0)
                  (fill (LastHourN h) 0%Z) (prevHour h) 0
      else h in
    let sh' :=
      if begin then
        mkShared (N sh) 0 (locHourOfDay sh) (locDayOfSim sh) (fill (prevTimeSteps sh) 0)
                 (ToutNew sh) (PrevN sh) (updateCurSimTime sh)
                 (triggerDesignDayReset sh) (firstTime sh)
      else sh in
    let d := set_hist d h' in
    let d := set_vars d (mkVars (regulatedFlow e) designMassFlow' (timeSS v)
                                (timeSSFactor v) (HXResistance v) (inletTemp v)
                                (outletTemp v) (boreholeTemp v) (aveFluidTemp v)
                                (QGLHE v)) in
    let d := set_flags d (myFlag d)
                       (if negb (BeginEnvrnFlag e) then true
                        else if begin then false else myEnvrnFlag d) in
    Ok (sh', d).

(** [updateGHX] copies the outlet temperature to the outlet node (outside
    this model) and warns, a limited number of times, about an excursion of
    more than 100 C; the result is the device and the new value of the
    [static] counter [numErrorCalls]. *)
Definition updateGHX (e : Env) (numVerticalGLHEs numErrorCalls : Z) (d : GLHE)
  : GLHE * Z :=
  let v := vars d in
  let GLHEdeltaTemp := Qabs (outletTemp v - inletTemp v) in
  if Qlt_bool DeltaTempLimit GLHEdeltaTemp
     && (numErrorCalls <? numVerticalGLHEs)%Z
     && negb (WarmupFlag e) then
    (set_vars d (mkVars (massFlowRate v)
                        (designFlow (par d) * GetDensityGlycol (inletTemp v))
                        (timeSS v) (timeSSFactor v) (HXResistance v) (inletTemp v)
                        (outletTemp v) (boreholeTemp v) (aveFluidTemp v) (QGLHE v)),
     (numErrorCalls + 1)%Z)
  else (d, numErrorCalls).

(** ** [GetGroundHeatExchangerInput] *)

(** One input object as [GetObjectItem] returns it, with the answers of the
    input utilities for it: [VerifyName] ([isNotOK], [isBlank]), and
    [GetOnlySingleNode] (the two node numbers, and whether it raised
    [errorsFound]). *)
Record IDFObject := mkIDFObject {
  cAlphaArgs : list string;
  rNumericArgs : list Q;
  lNumericFieldBlanks : list bool;
  isNotOK : bool;
  isBlank : bool;
  inletNode : Z;
  outletNode : Z;
  nodeError : bool
}.

Record Input := mkInput {
  verticalObjects : list IDFObject;     (* "GroundHeatExchanger:Vertical" *)
  slinkyObjects : list IDFObject;       (* "GroundHeatExchanger:Slinky" *)
  MaxNumberSimYears : Z;
  PubGroundTempSurfFlag : bool;
  PubGroundTempSurface : list Q
}.

Definition alpha (o : IDFObject) (i : Z) : string := sub EmptyString (cAlphaArgs o) i.
Definition num (o : IDFObject) (i : Z) : Q := sub 0 (rNumericArgs o) i.
Definition blank (o : IDFObject) (i : Z) : bool := sub false (lNumericFieldBlanks o) i.

(** The state of a device object as its constructor leaves it; the
    constructors are in [GroundHeatExchangers.hh], which is not among the
    sources, so that state is a parameter. *)
Context (fresh : GLHE).

(** The locals of the input routine that live across its loops:
    [errorsFound] (static), the module array [prevTimeSteps], the flag
    [allocated], and the devices read so far. *)
Record Loading := mkLoading {
  errorsFound : bool;
  ld_prevTimeSteps : list Q;
  allocated : bool;
  loaded : list GLHE
}.

Definition pipeRadiusError (pipeThick pipeOutDia : Q) : bool :=
  Qle_bool (pipeOutDia / 2) pipeThick.

Definition loadVertical (inp : Input) (st : Loading) (o : IDFObject) : Outcome Loading :=
  let f := par fresh in
  let err := errorsFound st || isNotOK o in
  let nm := if isNotOK o && isBlank o then "xxxxx"%string else alpha o 1 in
  let err := err || nodeError o in
  let nBore := Qtrunc (num o 2) in
  let err := err || pipeRadiusError (num o 12) (num o 10) in
  let years := if Qlt_bool (num o 13) (to_real (MaxNumberSimYears inp))
               then to_real (MaxNumberSimYears inp) else num o 13 in
  let nPairs := Qtrunc (num o 15) in
  let sAGG := 15%Z in
  let lAGG := 192%Z in
  let p := mkParams nm (inletNode o) (outletNode o) true true
             (num o 1) (num o 5) (num o 6) (num o 7) (num o 9) (num o 10) (num o 12)
             years (to_real nBore * num o 3) (num o 5 / num o 6) sAGG lAGG
             nBore (num o 3) (num o 4) (num o 8) (num o 11) (num o 14)
             (rhoPipe f) (cpPipe f) (verticalConfig f) (coilDiameter f) (coilPitch f)
             (trenchDepth f) (trenchLength f) (numTrenches f) (trenchSpacing f)
             (numCoils f) (coilDepth f) (useGroundTempDataForKusuda f)
             (averageGroundTemp f) (averageGroundTempAmplitude f)
             (phaseShiftOfMinGroundTempDays f) (monthOfMinSurfTemp f) (minSurfTemp f) in
  let t := mkTable nPairs
             (map (fun pairNum => num o (16 + 2 * (pairNum - 1))) (for_range 1 nPairs))
             (map (fun pairNum => num o (17 + 2 * (pairNum - 1))) (for_range 1 nPairs)) in
  let h := mkHistory (dimension (Qtrunc (years * 12)) 0)
                     (dimension (730 + lAGG + sAGG) 0)
                     (dimension ((sAGG + 1) * maxTSinHr + 1) 0)
                     (dimension (sAGG + 1) 0%Z)
                     (prevHour (hist fresh)) (lastQnSubHr (hist fresh)) in
  let d := mkGLHE Vert p t (rings fresh) h (vars fresh) (myFlag fresh)
                  (myEnvrnFlag fresh) (gFuncRuns fresh) (responseRuns fresh) in
  let ptsA := if allocated st then ld_prevTimeSteps st
              else dimension ((sAGG + 1) * maxTSinHr + 1) 0 in
  if err then Fatal "Errors found in processing input for GroundHeatExchanger:Vertical"
  else Ok (mkLoading err ptsA true (loaded st ++ [d])).

(** [InputProcessor::SameString] against a constant written in capitals:
    comparison without regard to case. *)
Definition upper (c : Ascii.ascii) : Ascii.ascii :=
  let n := Ascii.nat_of_ascii c in
  if ((97 <=? n) && (n <=? 122))%nat then Ascii.ascii_of_nat (n - 32) else c.

Fixpoint uppercase (s : string) : string :=
  match s with
  | EmptyString => EmptyString
  | String c s' => String (upper c) (uppercase s')
  end.

Definition SameString (s capitals : string) : bool := String.eqb (uppercase s) capitals.

(** The far-field parameters taken from the shallow ground temperatures:
    [(averageGroundTemp, averageGroundTempAmplitude, monthOfMinSurfTemp,
    minSurfTemp)]. *)
Definition kusudaFromSurface (inp : Input) : Q * Q * Z * Q :=
  let months := for_range 1 12 in
  let surf := fun monthIndex => sub 0 (PubGroundTempSurface inp) monthIndex in
  let avg := sum_over months surf / 12 in
  let amp := sum_over months (fun monthIndex => Qabs (surf monthIndex - avg)) / 12 in
  let '(mth, mn) :=
    fold_left (fun acc monthIndex =>
                 if Qle_bool (surf monthIndex) (snd acc) then (monthIndex, surf monthIndex)
                 else acc)
              months (0%Z, 10000) in
  (avg, amp, mth, mn).

Definition loadSlinky (inp : Input) (st : Loading) (o : IDFObject) : Outcome Loading :=
  let f := par fresh in
  let err := errorsFound st || isNotOK o in
  let nm := if isNotOK o && isBlank o then "xxxxx"%string else alpha o 1 in
  let err := err || nodeError o in
  let vertCfg :=
    if SameString (alpha o 4) "VERTICAL" then true
    else if SameString (alpha o 4) "HORIZONTAL" then false
    else verticalConfig f in
  let coilDia := num o 10 in
  let pitch := num o 11 in
  let tDepth := num o 12 in
  let tLength := num o 13 in
  let nTrenches := Qtrunc (num o 14) in
  let nCoils := Qtrunc (tLength / pitch) in
  let tubeLength := Pi * coilDia * tLength * to_real nTrenches / pitch in
  let useSurface := blank o 16 || blank o 17 || blank o 18 in
  let aboveGround := vertCfg && Qlt_bool (tDepth - coilDia) 0 in
  let err := err || aboveGround in
  let depth :=
    if vertCfg then (if aboveGround then coilDepth f else tDepth - coilDia / 2)
    else tDepth in
  let err := err || (useSurface && negb (PubGroundTempSurfFlag inp)) in
  let '(avg, amp, mth, mn) :=
    if useSurface then kusudaFromSurface inp
    else (num o 16, num o 17, monthOfMinSurfTemp f, minSurfTemp f) in
  let phase := if useSurface then to_real mth * (365 / 12) else num o 18 in
  let ptsA := if allocated st then ld_prevTimeSteps st
              else dimension ((SubAGG f + 1) * maxTSinHr + 1) 0 in
  let err := err || pipeRadiusError (num o 9) (num o 8) in
  let p := mkParams nm (inletNode o) (outletNode o) true true
             (num o 1) (num o 2) (num o 3 * num o 4) (tempGround f) (num o 5)
             (num o 8) (num o 9) (num o 19) tubeLength (num o 2 / (num o 3 * num o 4))
             (SubAGG f) (AGG f)
             (numBoreholes f) (boreholeLength f) (boreholeRadius f) (kGrout f)
             (UtubeDist f) (gReferenceRatio f)
             (num o 6) (num o 7) vertCfg coilDia pitch tDepth tLength nTrenches
             (num o 15) nCoils depth useSurface avg amp phase mth mn in
  let d := mkGLHE Slinky p (tbl fresh) (rings fresh) (hist fresh) (vars fresh)
                  (myFlag fresh) (myEnvrnFlag fresh) (gFuncRuns fresh)
                  (responseRuns fresh) in
  if err then Fatal "Errors found in processing input for GroundHeatExchanger:Slinky"
  else Ok (mkLoading err ptsA true (loaded st ++ [d])).

(** A loop over the input objects that a fatal error leaves at once. *)
Fixpoint loadAll (load : Loading -> IDFObject -> Outcome Loading)
  (st : Loading) (objs : list IDFObject) : Outcome Loading :=
  match objs with
  | [] => Ok st
  | o :: objs' => st' <- load st o ;; loadAll load st' objs'
  end.

(** The module state: the device arrays, the shared variables, and the
    [static] locals of the module's free functions. *)
Record Module := mkModule {
  GetInput : bool;                 (* static, SimGroundHeatExchangers *)
  inputErrors : bool;              (* static errorsFound, GetGroundHeatExchangerInput *)
  numVerticalGLHEs : Z;
  numSlinkyGLHEs : Z;
  checkEquipName : list bool;
  verticalGLHE : list GLHE;
  slinkyGLHE : list GLHE;
  shared : Shared;
  numErrorCalls : Z                (* static, updateGHX *)
}.

Definition GetGroundHeatExchangerInput (inp : Input) (M : Module) : Outcome Module :=
  let nV := Z.of_nat (List.length (verticalObjects inp)) in
  let nS := Z.of_nat (List.length (slinkyObjects inp)) in
  let err := if ((nV <=? 0) && (nS <=? 0))%Z then true else inputErrors M in
  (* VERTICAL GLHE *)
  stV <- loadAll (loadVertical inp)
                 (mkLoading err (prevTimeSteps (shared M)) false []) (verticalObjects inp) ;;
  let check := if (0 <? nV)%Z then dimension nV true else checkEquipName M in
  let vert := if (0 <? nV)%Z then loaded stV else verticalGLHE M in
  (* SLINKY GLHE *)
  stS <- loadAll (loadSlinky inp)
                 (mkLoading (errorsFound stV) (ld_prevTimeSteps stV) false [])
                 (slinkyObjects inp) ;;
  let check := if (0 <? nS)%Z then dimension nS true else check in
  let slnk := if (0 <? nS)%Z then loaded stS else slinkyGLHE M in
  Ok (mkModule (GetInput M) (errorsFound stS) nV nS check vert slnk
               (set_shared (shared M) (ld_prevTimeSteps stS)) (numErrorCalls M)).

(** ** [SimGroundHeatExchangers] *)

(** [InputProcessor::FindItemInList]: the index of the first device of that
    name, 0 when there is none. *)
Fixpoint FindItemInList (nm : string) (ds : list GLHE) (i : Z) : Z :=
  match ds with
  | [] => 0%Z
  | d :: ds' => if String.eqb nm (name (par d)) then i else FindItemInList nm ds' (i + 1)
  end.

(** The look-up of the device: the new [compIndex] and the array
    [checkEquipName]. *)
Definition findGLHE (nm : string) (compIndex : Z) (ds : list GLHE) (numGLHEs : Z)
  (check : list bool) : Outcome (Z * list bool) :=
  if (compIndex =? 0)%Z then
    let GLHENum := FindItemInList nm ds 1 in
    if (GLHENum =? 0)%Z then Fatal "SimGroundHeatExchangers: Unit not found"
    else Ok (GLHENum, check)
  else
    let GLHENum := compIndex in
    if ((numGLHEs <? GLHENum) || (GLHENum <? 1))%Z then
      Fatal "SimGroundHeatExchangers:  Invalid compIndex passed"
    else if sub false check GLHENum then
      if negb (String.eqb nm (name (par (sub fresh ds GLHENum)))) then
        Fatal "SimGroundHeatExchangers: Invalid compIndex passed"
      else Ok (GLHENum, upd check GLHENum false)
    else Ok (GLHENum, check).

(** Initialize, simulate and update one device. *)
Definition simulate (e : Env) (initLoopEquip : bool) (numV : Z)
  (sh : Shared) (numErr : Z) (d : GLHE) : Outcome (Shared * Z * GLHE) :=
  r <- initGLHESimVars e sh d ;;
  if initLoopEquip then Ok (fst r, numErr, snd r)
  else
    let '(sh', d') := calcGroundHeatExchanger e (fst r) (snd r) in
    let '(d'', numErr') := updateGHX e numV numErr d' in
    Ok (sh', numErr', d'').

(** The result is the module state and the value left in [compIndex].
    [inp] is the input file, read at the first call; the arguments
    [runFlag] and [firstIteration] are not read by the source. *)
Definition SimGroundHeatExchangers (inp : Input) (e : Env)
  (type nm : string) (compIndex : Z) (initLoopEquip : bool) (M : Module)
  : Outcome (Module * Z) :=
  (* GET INPUT *)
  M <- (if GetInput M then
          M' <- GetGroundHeatExchangerInput inp M ;;
          Ok (mkModule false (inputErrors M') (numVerticalGLHEs M') (numSlinkyGLHEs M')
                       (checkEquipName M') (verticalGLHE M') (slinkyGLHE M')
                       (shared M') (numErrorCalls M'))
        else Ok M) ;;
  if String.eqb type "GROUNDHEATEXCHANGER:VERTICAL" then
    f <- findGLHE nm compIndex (verticalGLHE M) (numVerticalGLHEs M) (checkEquipName M) ;;
    let '(GLHENum, check) := f in
    r <- simulate e initLoopEquip (numVerticalGLHEs M) (shared M) (numErrorCalls M)
                  (sub fresh (verticalGLHE M) GLHENum) ;;
    let '(sh, numErr, d) := r in
    Ok (mkModule (GetInput M) (inputErrors M) (numVerticalGLHEs M) (numSlinkyGLHEs M)
                 check (upd (verticalGLHE M) GLHENum d) (slinkyGLHE M) sh numErr,
        GLHENum)
  else if String.eqb type "GROUNDHEATEXCHANGER:SLINKY" then
    f <- findGLHE nm compIndex (slinkyGLHE M) (numSlinkyGLHEs M) (checkEquipName M) ;;
    let '(GLHENum, check) := f in
    r <- simulate e initLoopEquip (numVerticalGLHEs M) (shared M) (numErrorCalls M)
                  (sub fresh (slinkyGLHE M) GLHENum) ;;
    let '(sh, numErr, d) := r in
    Ok (mkModule (GetInput M) (inputErrors M) (numVerticalGLHEs M) (numSlinkyGLHEs M)
                 check (verticalGLHE M) (upd (slinkyGLHE M) GLHENum d) sh numErr,
        GLHENum)
  else Ok (M, compIndex).

(** The module state when the program starts: the initial values of the
    module variables and of the [static] locals. *)
Definition initialModule : Module :=
  mkModule true false 0 0 [] [] []
           (mkShared 1 0 0 0 [] (19375#1000) 1 true false true) 0.

(** ** Predicates of the specification *)

(** The invariant of the g-function table: at least two pairs, on a
    strictly increasing log-time axis. *)
Definition increasing (tb : Table) : Prop :=
  forall i j, (1 <= i)%Z -> (i < j)%Z -> (j <= NPairs tb)%Z -> lntts tb i < lntts tb j.

Definition well_formed (tb : Table) : Prop := (2 <= NPairs tb)%Z /\ increasing tb.

(** [v] is the ordinate at [x] of the straight line through [(x1, y1)] and
    [(x2, y2)]. *)
Definition on_line (x1 y1 x2 y2 x v : Q) : Prop :=
  v == y1 + (x - x1) * ((y2 - y1) / (x2 - x1)).

(** The superposed temperature drop of the load history, [sumTotal]: zero
    at the first step, else the sum of the branch that applies. *)
Definition historySum (sh : Shared) (d : GLHE) : Q :=
  if (N sh =? 1)%Z then 0
  else if Qlt_bool (currentSimTime sh)
                   (hrsPerMonth + to_real (AGG (par d)) + to_real (SubAGG (par d)))
  then sumTotal_noAggregation sh d (kGroundFactor d)
  else sumTotal_aggregation sh d (kGroundFactor d).

(** The energy of the sub-hourly loads of the [n] most recent steps: the
    sum over [J = 1..n] of [QnSubHr( J )] times the length of its own step,
    [| prevTimeSteps( J ) - prevTimeSteps( J + 1 ) |]. *)
Fixpoint energy (q t : Z -> Q) (n : nat) : Q :=
  match n with
  | O => 0
  | S n' => energy q t n'
            + q (Z.of_nat n) * Qabs (t (Z.of_nat n) - t (Z.of_nat n + 1)%Z)
  end.

(** The history state of a device with the shared step counter and time
    stamps: what a call may push to. *)
Definition historyState (sh : Shared) (d : GLHE)
  : list Q * Z * list Q * list Q * list Q * list Z * Z :=
  (prevTimeSteps sh, N sh, QnSubHr (hist d), QnHr (hist d), QnMonthlyAgg (hist d),
   LastHourN (hist d), prevHour (hist d)).

(** Two calls within one time step: the clock gives the same elapsed time
    [currentSimTime], on the same day of the same phase (warm-up or not) of
    the simulation. *)
Definition sameClock (e1 e2 : Env) : Prop :=
  simTime e1 = simTime e2 /\ DayOfSim e1 = DayOfSim e2 /\ WarmupFlag e1 = WarmupFlag e2.

(** What a call at a positive time leaves behind, for a call that follows
    it on the same clock: the g-functions are done, the reset of day one
    is not armed, the time stamp and the step counter are those of the
    call, and the device is in the current hour. *)
Definition settled (e : Env) (sh : Shared) (d : GLHE) : Prop :=
  firstTime sh = false /\
  (DayOfSim e =? 1)%Z
  && (if triggerDesignDayReset sh && WarmupFlag e then true else updateCurSimTime sh)
  = false /\
  Qeq_bool (pts sh 1) (simTime e) = true /\
  N sh = PrevN sh /\
  prevHour (hist d) = Qtrunc (mod_ (simTime e) hrsPerDay + 1).

(** An input object whose pipe wall is at least as thick as the outer
    radius of the pipe: fields 12 and 10 of a vertical object, fields 9 and
    8 of a slinky object. *)
Definition thickPipe (inp : Input) : Prop :=
  (exists o, In o (verticalObjects inp) /\ num o 12 >= num o 10 / 2) \/
  (exists o, In o (slinkyObjects inp) /\ num o 9 >= num o 8 / 2).

(** The ring [(m, n)]: trench [m], coil [n] of the field. *)
Definition inField (d : GLHE) (m n : Z) : Prop :=
  (1 <= m <= numTrenches (par d))%Z /\ (1 <= n <= numCoils (par d))%Z.

(** The ring centres as [calcGFunctions] places them. *)
Definition placed (d : GLHE) : Prop :=
  X0 (rings d)
  = map (fun coil => coilPitch (par d) * to_real (coil - 1))
        (for_range 1 (numCoils (par d)))
  /\ Y0 (rings d)
     = map (fun trench => to_real (trench - 1) * trenchSpacing (par d))
           (for_range 1 (numTrenches (par d))).





(** What the loop stores for a pair of rings: the double integral in the
    near field, the mid-field response otherwise. *)
Definition ringValue (d : GLHE) (t : Q) (m n m1 n1 : Z) : Q :=
  if Qle_bool (distToCenter d m n m1 n1) ((5#2) + coilDiameter (par d)) then
    doubleIntegral d m n m1 n1 t (fst (nodes m n m1 n1)) (snd (nodes m n m1 n1))
  else midFieldResponseFunction d m n m1 n1 t.

(** The invariant of [valStored] during the loops: a stored value (one
    that is not negative) is the value of a pair of rings of the field
    with these index offsets. *)
Definition storedFrom (d : GLHE) (t : Q) (vs : Stored) : Prop :=
  forall a b, 0 <= vs a b ->
  exists m n m1 n1,
    inField d m n /\ inField d m1 n1 /\
    Z.abs (m - m1) = a /\ Z.abs (n - n1) = b /\
    vs a b = ringValue d t m n m1 n1.

End Model.

(** * A small installation, for the examples

    The functions of <cmath> are replaced by rational stand-ins, exact
    where the examples depend on them: [ln 1 = 0], [log10 1 = 0],
    [cos 0 = 1], [sin 0 = 0]. *)

Definition exCmath : Cmath :=
  Build_Cmath (fun x => x - 1) (fun x => x - 1) (fun x _ => x) (fun x => x)
              (fun _ => 1) (fun _ => 1) (fun _ => 0) 3.

Definition exFluid : Fluid :=
  Build_Fluid (fun _ => 4000) (fun _ => 1000) (fun _ => 1#1000) (fun _ => 6#10).

(** A device as the constructor is taken to leave it: numbers at zero,
    arrays not allocated, the two "first call" flags raised. *)
Definition exFresh : GLHE :=
  mkGLHE Vert
         (mkParams EmptyString 0 0 false false 0 0 0 0 0 0 0 0 0 0 0 0
                   0 0 0 0 0 0
                   0 0 false 0 0 0 0 0 0 0 0 false 0 0 0 0 0)
         (mkTable 0 [] [])
         (mkRings [] [] 0)
         (mkHistory [] [] [] [] 1 0)
         (mkVars 0 0 0 0 0 0 0 0 0 0)
         true true 0 0.

(** Two g-function tables of three pairs. *)
Definition exTable : Table := mkTable 3 [0; 1; 2] [0; 10; 40].
Definition exTable' : Table := mkTable 3 [-(1); 0; 1] [2; 10; 40].

(** One borehole of 100 m: the numeric fields of a
    [GroundHeatExchanger:Vertical] object, with a table of two pairs. *)
Definition exVerticalObject : IDFObject :=
  mkIDFObject
    ["Borehole"%string; "In"%string; "Out"%string]
    [1#1000; 1; 100; 1#10; 1; 2000000; 15; 1; 4#10; 4#100; 3#100; 4#1000; 1; 1#1000;
     2; -(10); 1; 0; 5]
    [] false false 1 2 false.

(** A slinky of two trenches: the numeric fields of a
    [GroundHeatExchanger:Slinky] object. *)
Definition exSlinkyObject : IDFObject :=
  mkIDFObject
    ["Coil"%string; "In2"%string; "Out2"%string; "Horizontal"%string]
    [1#1000; 1; 2000; 1000; 4#10; 900; 2000; 4#100; 4#1000; 1; 1#5; 2; 10; 2; 3;
     15; 5; 30; 1]
    (repeat false 19) false false 3 4 false.

(** The same borehole with a pipe wall as thick as the pipe radius. *)
Definition exThickPipeObject : IDFObject :=
  mkIDFObject
    ["Borehole"%string; "In"%string; "Out"%string]
    [1#1000; 1; 100; 1#10; 1; 2000000; 15; 1; 4#10; 4#100; 3#100; 2#100; 1; 1#1000;
     2; -(10); 1; 0; 5]
    [] false false 1 2 false.

Definition exInput (vertical slinky : list IDFObject) : Input :=
  mkInput vertical slinky 1 true (repeat 10 12).

(** The clock at the hour [hour] of the first day, outside warm-up, with an
    inlet at 20 C and a flow of 0.2 kg/s. *)
Definition exRunning (hour : Z) (flow : Q) : Env :=
  mkEnv 1 hour 1 1 0 false false 20 flow false.

(** The first instant of a new environment, in warm-up: [currentSimTime]
    is zero. *)
Definition exNewEnvironment : Env :=
  mkEnv 1 1 1 1 0 true true 20 (1#5) false.

Definition VERTICAL : string := "GROUNDHEATEXCHANGER:VERTICAL".
Definition SLINKY : string := "GROUNDHEATEXCHANGER:SLINKY".

(** Two calls for the borehole: one step at hour 2 of a run, then the first
    instant of the next environment. *)
Definition exFirstCall : Outcome (Module * Z) :=
  @SimGroundHeatExchangers exCmath exFluid exFresh (exInput [exVerticalObject] [])
    (exRunning 2 (1#5)) VERTICAL "Borehole" 0 false (@initialModule).

Definition exSecondCall : Outcome (Module * Z) :=
  r <- exFirstCall ;;
  @SimGroundHeatExchangers exCmath exFluid exFresh (exInput [exVerticalObject] [])
    exNewEnvironment VERTICAL "Borehole" (snd r) false (fst r).

(** A device and the shared variables at a first step on an empty history:
    one hour elapsed with a time constant of one hour (the g-function is
    read at [ln 1 = 0], where the table holds 10), a flow of 0.2 kg/s, a
    tube of 100 m, the ground at 15 C and the inlet at 20 C. *)
Definition exDevice : GLHE :=
  mkGLHE Vert
         (mkParams "Borehole" 1 2 true true (1#1000) 1 2000000 15 (4#10) (4#100) (4#1000)
                   1 100 (1#2000000) 15 192
                   1 100 (1#10) 1 (3#100) (1#1000)
                   0 0 false 0 0 0 0 0 0 0 0 false 0 0 0 0 0)
         exTable'
         (mkRings [] [] 0)
         (mkHistory (repeat 0 12) (repeat 0 937) (repeat 0 961) (repeat 1%Z 16) 1 0)
         (mkVars (1#5) 1 0 1 (1#10) 20 0 0 0 0)
         false true 1 0.

Definition exShared : Shared :=
  mkShared 1 1 2 1 (1 :: repeat 0 960) 0 1 false true false.

(** A borehole and a slinky in one input file; within one time step the
    plant calls the borehole, then the slinky. *)
Definition exTwoDevices : Outcome (Module * Z) :=
  r <- @SimGroundHeatExchangers exCmath exFluid exFresh
         (exInput [exVerticalObject] [exSlinkyObject])
         (exRunning 2 (1#5)) VERTICAL "Borehole" 0 false (@initialModule) ;;
  @SimGroundHeatExchangers exCmath exFluid exFresh
    (exInput [exVerticalObject] [exSlinkyObject])
    (exRunning 2 (1#5)) SLINKY "Coil" 0 false (fst r).

(** The same device with the flow stopped. *)
Definition exStagnant : GLHE :=
  set_vars exDevice (mkVars 0 1 0 1 (1#10) 20 0 0 0 0).

(** The shared variables and a history at an hour change after one step of
    one hour with a load of 5 W/m. *)
Definition exHour : Shared :=
  mkShared 2 1 2 1 (1 :: repeat 0 960) 0 2 false true false.

Definition exHistory : History :=
  mkHistory (repeat 0 12) (repeat 0 937) (5 :: repeat 0 960) (repeat 1%Z 16) 1 5.

(** A second call within the same time step, with another inlet
    temperature and another flow. *)
Definition exIteration : Env :=
  mkEnv 1 2 1 1 0 false false 25 (1#10) false.

(** A slinky field of one trench and two coils, one metre apart, with the
    ring centres placed. *)
Definition exField : GLHE :=
  let p := mkParams "Coil" 3 4 true true (1#1000) 1 2000000 15 (4#10) (4#100) (4#1000)
                    1 6 (1#2000000) 0 0
                    0 0 0 0 0 0
                    900 2000 false 1 1 2 2 1 3 2 2 false 15 5 30 0 0 in
  mkGLHE Slinky p (mkTable 0 [] [])
         (mkRings (map (fun coil => coilPitch p * to_real (coil - 1))
                       (for_range 1 (numCoils p)))
                  (map (fun trench => to_real (trench - 1) * trenchSpacing p)
                       (for_range 1 (numTrenches p)))
                  (coilDepth p))
         (mkHistory [] [] [] [] 1 0)
         (mkVars 0 0 0 0 0 0 0 0 0 0)
         false true 0 0.

(** * Part II: lemmas and theorems *)

(** ** Comparisons, arrays, loops *)

Lemma Qlt_bool_iff (x y : Q) : Qlt_bool x y = true <-> x < y.
Proof.
  unfold Qlt_bool. rewrite negb_true_iff.
  split; intro H.
  - apply Qnot_le_lt. intro Hle. apply Qle_bool_iff in Hle. congruence.
  - destruct (Qle_bool y x) eqn:E; [|reflexivity].
    apply Qle_bool_iff in E. exfalso. apply (Qlt_not_le _ _ H E).
Qed.

Lemma Qlt_bool_false_iff (x y : Q) : Qlt_bool x y = false <-> y <= x.
Proof.
  unfold Qlt_bool. rewrite negb_false_iff. apply Qle_bool_iff.
Qed.

Lemma Qle_bool_false_iff (x y : Q) : Qle_bool x y = false <-> y < x.
Proof.
  rewrite <- Qlt_bool_iff. unfold Qlt_bool.
  destruct (Qle_bool x y); simpl; intuition congruence.
Qed.

#[global] Instance Qlt_bool_comp : Proper (Qeq ==> Qeq ==> eq) Qlt_bool.
Proof.
  intros x x' Hx y y' Hy. unfold Qlt_bool. now rewrite Hx, Hy.
Qed.

Lemma removelast_length {A : Type} (l : list A) :
  List.length (removelast l) = pred (List.length l).
Proof.
  induction l as [|x l IH]; [reflexivity|].
  destruct l as [|y l]; [reflexivity|].
  change (removelast (x :: y :: l)) with (x :: removelast (y :: l)).
  cbn [List.length] in *. rewrite IH. reflexivity.
Qed.

Lemma eoshift_length {A : Type} (a : list A) (b : A) :
  List.length (eoshift a b) = List.length a.
Proof.
  destruct a as [|x a]; [reflexivity|].
  unfold eoshift. cbn [List.length]. rewrite removelast_length.
  reflexivity.
Qed.

Lemma sub_eoshift_1 {A : Type} (d : A) (a : list A) (b : A) :
  a <> [] -> sub d (eoshift a b) 1 = b.
Proof.
  destruct a; [congruence|]. reflexivity.
Qed.

Lemma zrange_app (lo : Z) (n m : nat) :
  zrange lo (n + m) = zrange lo n ++ zrange (lo + Z.of_nat n) m.
Proof.
  revert lo. induction n as [|n IH]; intro lo.
  - simpl. now rewrite Z.add_0_r.
  - cbn [zrange Nat.add app]. rewrite IH. do 3 f_equal. lia.
Qed.

Lemma for_range_last (lo hi : Z) :
  (lo <= hi)%Z -> for_range lo hi = for_range lo (hi - 1) ++ [hi].
Proof.
  intro H. unfold for_range.
  replace (Z.to_nat (hi - lo + 1)) with (Z.to_nat (hi - 1 - lo + 1) + 1)%nat by lia.
  rewrite zrange_app. cbn [zrange]. do 2 f_equal. lia.
Qed.

Lemma for_range_empty (lo hi : Z) : (hi < lo)%Z -> for_range lo hi = [].
Proof.
  intro H. unfold for_range. replace (Z.to_nat (hi - lo + 1)) with O by lia.
  reflexivity.
Qed.

Lemma in_zrange (lo : Z) (n : nat) (i : Z) :
  In i (zrange lo n) <-> (lo <= i < lo + Z.of_nat n)%Z.
Proof.
  revert lo. induction n as [|n IH]; intro lo; cbn [zrange In].
  - lia.
  - rewrite IH. lia.
Qed.

Lemma in_for_range (lo hi i : Z) : In i (for_range lo hi) <-> (lo <= i <= hi)%Z.
Proof.
  unfold for_range. rewrite in_zrange. lia.
Qed.

Lemma sum_over_app (r1 r2 : list Z) (term : Z -> Q) :
  sum_over (r1 ++ r2) term == sum_over r1 term + sum_over r2 term.
Proof.
  unfold sum_over. rewrite fold_left_app.
  generalize (fold_left (fun acc i => acc + term i) r1 0). intro a.
  revert a. induction r2 as [|i r2 IH]; intro a; cbn [fold_left].
  - ring.
  - rewrite IH. rewrite (IH (0 + term i)). ring.
Qed.

Lemma sum_over_last (lo hi : Z) (term : Z -> Q) :
  (lo <= hi)%Z ->
  sum_over (for_range lo hi) term == sum_over (for_range lo (hi - 1)) term + term hi.
Proof.
  intro H. rewrite (for_range_last lo hi H), sum_over_app.
  unfold sum_over at 2. cbn [fold_left]. ring.
Qed.

Lemma to_real_sub (a b : Z) : to_real a - to_real b = to_real (a - b).
Proof.
  unfold to_real, Qminus.
  rewrite <- inject_Z_opp, <- inject_Z_plus. reflexivity.
Qed.

(** ** The binary search of [interpGFunc] *)

Section Search.
Variable tb : Table.
Variable x : Q.
Hypothesis Hinc : increasing tb.

Let below (b : Z) : Prop := forall i, (1 <= i < b)%Z -> lntts tb i < x.
Let above (b : Z) : Prop := forall i, (b <= i <= NPairs tb)%Z -> x < lntts tb i.

(** The entry found, or the place where the value falls: all entries before
    [Mid'] are smaller, all entries from [Mid'] on are larger, where [Mid']
    is [Mid] after the adjustment that follows the loop. *)
Lemma search_spec (fuel : nat) (Low High Mid0 : Z) :
  (Z.to_nat (High - Low + 1) <= fuel)%nat ->
  (1 <= Low)%Z -> (High <= NPairs tb)%Z -> (Low <= High + 1)%Z ->
  below Low -> above (High + 1) ->
  (Low <= High \/ Mid0 = Low - 1 /\ 1 <= Mid0 \/ Mid0 = High + 1 /\ Mid0 <= NPairs tb)%Z ->
  match search tb fuel x Low High Mid0 with
  | (true, Mid) => (1 <= Mid <= NPairs tb)%Z /\ lntts tb Mid == x
  | (false, Mid) =>
      let Mid' := if Qlt_bool (lntts tb Mid) x then (Mid + 1)%Z else Mid in
      below Mid' /\ above Mid' /\ (1 <= Mid' <= NPairs tb + 1)%Z
  end.
Proof.
  revert Low High Mid0.
  induction fuel as [|fuel IH]; intros Low High Mid0 Hfuel HLow HHigh HLH Hb Ha HMid.
  - assert (Hgt : (High < Low)%Z) by lia.
    cbn [search]. cbv zeta.
    destruct HMid as [HMid | [[-> H1] | [-> H1]]]; [lia| |].
    + rewrite (proj2 (Qlt_bool_iff _ _)) by (apply Hb; lia).
      replace (Low - 1 + 1)%Z with Low by lia.
      repeat split; try lia; auto.
      intros i Hi. apply Ha. lia.
    + rewrite (proj2 (Qlt_bool_false_iff _ _)) by (apply Qlt_le_weak, Ha; lia).
      repeat split; try lia; auto.
      intros i Hi. apply Hb. lia.
  - cbn [search].
    destruct (Low <=? High)%Z eqn:ELH.
    + apply Z.leb_le in ELH. cbv zeta.
      assert (HM : (Low <= Z.quot (Low + High) 2 <= High)%Z).
      { rewrite Z.quot_div_nonneg by lia.
        split; [apply Z.div_le_lower_bound | apply Z.div_le_upper_bound]; lia. }
      set (Mid := Z.quot (Low + High) 2) in *.
      destruct (Qlt_bool (lntts tb Mid) x) eqn:E1.
      * apply Qlt_bool_iff in E1.
        apply IH; try lia; auto.
        intros i Hi.
        destruct (Z.eq_dec i Mid) as [-> | Hne]; [exact E1|].
        destruct (Z_lt_le_dec i Low) as [Hlt | Hge]; [apply Hb; lia|].
        apply Qlt_trans with (lntts tb Mid); [apply Hinc; lia | exact E1].
      * apply Qlt_bool_false_iff in E1.
        destruct (Qlt_bool x (lntts tb Mid)) eqn:E2.
        -- apply Qlt_bool_iff in E2.
           apply IH; try lia; auto.
           replace (Mid - 1 + 1)%Z with Mid by lia.
           intros i Hi.
           destruct (Z.eq_dec i Mid) as [-> | Hne]; [exact E2|].
           destruct (Z_lt_le_dec High i) as [Hlt | Hge]; [apply Ha; lia|].
           apply Qlt_trans with (lntts tb Mid); [exact E2 | apply Hinc; lia].
        -- apply Qlt_bool_false_iff in E2.
           split; [lia | apply Qle_antisym; assumption].
    + apply Z.leb_gt in ELH. cbv zeta.
      destruct HMid as [HMid | [[-> H1] | [-> H1]]]; [lia| |].
      * rewrite (proj2 (Qlt_bool_iff _ _)) by (apply Hb; lia).
        replace (Low - 1 + 1)%Z with Low by lia.
        repeat split; try lia; auto.
        intros i Hi. apply Ha. lia.
      * rewrite (proj2 (Qlt_bool_false_iff _ _)) by (apply Qlt_le_weak, Ha; lia).
        repeat split; try lia; auto.
        intros i Hi. apply Hb. lia.
Qed.

End Search.

(** [High - Low + 1] iterations are enough: more fuel does not change the
    result of the search. *)
Lemma search_fuel (tb : Table) (x : Q) (fuel1 fuel2 : nat) (Low High Mid : Z) :
  (Z.to_nat (High - Low + 1) <= fuel1)%nat ->
  (Z.to_nat (High - Low + 1) <= fuel2)%nat ->
  (0 <= Low)%Z ->
  search tb fuel1 x Low High Mid = search tb fuel2 x Low High Mid.
Proof.
  revert fuel2 Low High Mid.
  induction fuel1 as [|fuel1 IH]; intros fuel2 Low High Mid H1 H2 H0.
  - destruct fuel2 as [|fuel2]; [reflexivity|].
    cbn [search]. destruct (Low <=? High)%Z eqn:E; [|reflexivity].
    apply Z.leb_le in E. lia.
  - destruct fuel2 as [|fuel2].
    + cbn [search]. destruct (Low <=? High)%Z eqn:E; [|reflexivity].
      apply Z.leb_le in E. lia.
    + cbn [search]. destruct (Low <=? High)%Z eqn:E; [|reflexivity].
      apply Z.leb_le in E. cbv zeta.
      assert (HM : (Low <= Z.quot (Low + High) 2 <= High)%Z).
      { rewrite Z.quot_div_nonneg by lia.
        split; [apply Z.div_le_lower_bound | apply Z.div_le_upper_bound]; lia. }
      destruct (Qlt_bool (lntts tb (Z.quot (Low + High) 2)) x).
      * apply IH; lia.
      * destruct (Qlt_bool x (lntts tb (Z.quot (Low + High) 2))); [|reflexivity].
        apply IH; lia.
Qed.

(** ** C1: the linear law of [interpGFunc] *)

Lemma increasing_neq (tb : Table) (i j : Z) :
  increasing tb -> (1 <= i)%Z -> (i < j)%Z -> (j <= NPairs tb)%Z ->
  ~ lntts tb j - lntts tb i == 0.
Proof.
  intros Hinc H1 H2 H3 H. specialize (Hinc i j H1 H2 H3). lra.
Qed.

Lemma through_on_line (tb : Table) (x : Q) (i j : Z) :
  ~ lntts tb j - lntts tb i == 0 ->
  on_line (lntts tb i) (gfnc tb i) (lntts tb j) (gfnc tb j) x (through tb x i j).
Proof.
  intro H. unfold on_line, through. field. exact H.
Qed.

(** A line does not depend on the order in which its two points are given. *)
Lemma on_line_sym (x1 y1 x2 y2 x v : Q) :
  ~ x2 - x1 == 0 -> on_line x1 y1 x2 y2 x v -> on_line x2 y2 x1 y1 x v.
Proof.
  unfold on_line. intros H ->. field. split; lra.
Qed.

(** The search of [interpGFunc], for a value inside the table. *)
Lemma search_inside (tb : Table) (x : Q) :
  well_formed tb ->
  match search tb (Z.to_nat (NPairs tb)) x 1 (NPairs tb) 0 with
  | (true, Mid) => (1 <= Mid <= NPairs tb)%Z /\ lntts tb Mid == x
  | (false, Mid) =>
      let Mid' := if Qlt_bool (lntts tb Mid) x then (Mid + 1)%Z else Mid in
      (forall i, (1 <= i < Mid')%Z -> lntts tb i < x) /\
      (forall i, (Mid' <= i <= NPairs tb)%Z -> x < lntts tb i) /\
      (1 <= Mid' <= NPairs tb + 1)%Z
  end.
Proof.
  intros [Hn Hinc].
  apply (search_spec tb x Hinc); lia.
Qed.

(** C1.  On a table of at least two pairs with a strictly increasing
    log-time axis, [interpGFunc] returns: for a value strictly between two
    adjacent entries, the ordinate of the straight line through these two
    entries; for a value equal to an entry, the response stored with it;
    below the first entry, the ordinate of the line through the entries 1
    and 2; above the last entry, the ordinate of the line through the
    entries [NPairs - 1] and [NPairs] (an extrapolation, never the boundary
    value itself). *)
Theorem interpGFunc_linear_law (tb : Table) (x : Q) :
  well_formed tb ->
  (forall k, (1 <= k < NPairs tb)%Z ->
     lntts tb k < x -> x < lntts tb (k + 1) ->
     on_line (lntts tb k) (gfnc tb k) (lntts tb (k + 1)) (gfnc tb (k + 1)) x
             (interpGFunc tb x))
  /\ (forall k, (1 <= k <= NPairs tb)%Z ->
        x == lntts tb k -> interpGFunc tb x == gfnc tb k)
  /\ (x < lntts tb 1 ->
      on_line (lntts tb 1) (gfnc tb 1) (lntts tb 2) (gfnc tb 2) x (interpGFunc tb x))
  /\ (lntts tb (NPairs tb) < x ->
      on_line (lntts tb (NPairs tb - 1)) (gfnc tb (NPairs tb - 1))
              (lntts tb (NPairs tb)) (gfnc tb (NPairs tb)) x (interpGFunc tb x)).
Proof.
  intros Hwf. pose proof Hwf as [Hn Hinc].
  pose proof (search_inside tb x Hwf) as Hs.
  assert (H1N : lntts tb 1 < lntts tb (NPairs tb)) by (apply Hinc; lia).
  split; [|split; [|split]].
  - (* strictly between two adjacent entries *)
    intros k Hk Hlo Hhi. unfold interpGFunc.
    assert (H1k : lntts tb 1 <= lntts tb k).
    { destruct (Z.eq_dec k 1) as [-> | Hne]; [apply Qle_refl|].
      apply Qlt_le_weak, Hinc; lia. }
    assert (HkN : lntts tb (k + 1) <= lntts tb (NPairs tb)).
    { destruct (Z.eq_dec (k + 1) (NPairs tb)) as [-> | Hne]; [apply Qle_refl|].
      apply Qlt_le_weak, Hinc; lia. }
    rewrite (proj2 (Qle_bool_false_iff _ _)) by lra.
    rewrite (proj2 (Qlt_bool_false_iff _ _)) by lra.
    destruct (search tb (Z.to_nat (NPairs tb)) x 1 (NPairs tb) 0) as [[|] Mid].
    + destruct Hs as [HM Heq]. exfalso.
      destruct (Z_lt_le_dec k Mid) as [Hlt | Hge].
      * assert (lntts tb (k + 1) <= lntts tb Mid).
        { destruct (Z.eq_dec (k + 1) Mid) as [-> | Hne]; [apply Qle_refl|].
          apply Qlt_le_weak, Hinc; lia. }
        lra.
      * assert (lntts tb Mid <= lntts tb k).
        { destruct (Z.eq_dec Mid k) as [-> | Hne]; [apply Qle_refl|].
          apply Qlt_le_weak, Hinc; lia. }
        lra.
    + cbv zeta in Hs.
      set (Mid' := if Qlt_bool (lntts tb Mid) x then (Mid + 1)%Z else Mid) in *.
      destruct Hs as (Hb & Ha & HM).
      assert (HMid : Mid' = (k + 1)%Z).
      { destruct (Z_lt_le_dec k Mid') as [Hlt | Hge].
        - destruct (Z_lt_le_dec (k + 1) Mid') as [Hlt' | Hge']; [|lia].
          specialize (Hb (k + 1)%Z ltac:(lia)). lra.
        - specialize (Ha k ltac:(lia)). lra. }
      rewrite HMid. replace (k + 1 - 1)%Z with k by lia.
      apply on_line_sym.
      * intro H. pose proof (Hinc k (k + 1)%Z ltac:(lia) ltac:(lia) ltac:(lia)). lra.
      * apply through_on_line.
        intro H. pose proof (Hinc k (k + 1)%Z ltac:(lia) ltac:(lia) ltac:(lia)). lra.
  - (* equal to a table entry *)
    intros k Hk Heq. unfold interpGFunc.
    destruct (Z.eq_dec k 1) as [-> | Hne].
    + rewrite (proj2 (Qle_bool_iff _ _)) by lra.
      unfold through. rewrite Heq. field.
      apply (increasing_neq tb 1 2 Hinc); lia.
    + assert (H1k : lntts tb 1 < lntts tb k) by (apply Hinc; lia).
      assert (HkN : lntts tb k <= lntts tb (NPairs tb)).
      { destruct (Z.eq_dec k (NPairs tb)) as [-> | Hne']; [apply Qle_refl|].
        apply Qlt_le_weak, Hinc; lia. }
      rewrite (proj2 (Qle_bool_false_iff _ _)) by lra.
      rewrite (proj2 (Qlt_bool_false_iff _ _)) by lra.
      destruct (search tb (Z.to_nat (NPairs tb)) x 1 (NPairs tb) 0) as [[|] Mid].
      * destruct Hs as [HM HeqM].
        assert (Mid = k) as ->; [|reflexivity].
        destruct (Z.lt_trichotomy Mid k) as [Hlt | [He | Hgt]]; [|exact He|].
        -- pose proof (Hinc Mid k ltac:(lia) Hlt ltac:(lia)). lra.
        -- pose proof (Hinc k Mid ltac:(lia) ltac:(lia) ltac:(lia)). lra.
      * cbv zeta in Hs.
        set (Mid' := if Qlt_bool (lntts tb Mid) x then (Mid + 1)%Z else Mid) in *.
        destruct Hs as (Hb & Ha & HM). exfalso.
        destruct (Z_lt_le_dec k Mid') as [Hlt | Hge].
        -- specialize (Hb k ltac:(lia)). lra.
        -- specialize (Ha k ltac:(lia)). lra.
  - (* below the first entry *)
    intro Hlt. unfold interpGFunc.
    rewrite (proj2 (Qle_bool_iff _ _)) by lra.
    apply through_on_line. apply (increasing_neq tb 1 2 Hinc); lia.
  - (* above the last entry *)
    intro Hgt. unfold interpGFunc.
    rewrite (proj2 (Qle_bool_false_iff _ _)) by lra.
    rewrite (proj2 (Qlt_bool_iff _ _)) by lra.
    apply on_line_sym.
    + intro H.
      pose proof (Hinc (NPairs tb - 1)%Z (NPairs tb) ltac:(lia) ltac:(lia) ltac:(lia)).
      lra.
    + apply through_on_line. intro H.
      pose proof (Hinc (NPairs tb - 1)%Z (NPairs tb) ltac:(lia) ltac:(lia) ltac:(lia)).
      lra.
Qed.

(** ** The parts of a device that each step leaves alone *)

Section Frames.
Context {CM : Cmath} {FL : Fluid}.

Lemma calcGFunctions_vars (d : GLHE) : vars (calcGFunctions d) = vars d.
Proof. unfold calcGFunctions. destruct (kind d); reflexivity. Qed.

Lemma calcGFunctions_gFuncRuns (d : GLHE) :
  gFuncRuns (calcGFunctions d) = S (gFuncRuns d).
Proof.
  unfold calcGFunctions, count_gFunc. cbn [gFuncRuns].
  destruct (kind d); reflexivity.
Qed.

Lemma getAnnualTimeConstant_frame (d : GLHE) :
  let d' := getAnnualTimeConstant d in
  kind d' = kind d /\ par d' = par d /\ tbl d' = tbl d /\ hist d' = hist d /\
  rings d' = rings d /\ gFuncRuns d' = gFuncRuns d /\ responseRuns d' = responseRuns d /\
  massFlowRate (vars d') = massFlowRate (vars d) /\
  HXResistance (vars d') = HXResistance (vars d) /\
  inletTemp (vars d') = inletTemp (vars d) /\
  outletTemp (vars d') = outletTemp (vars d) /\
  boreholeTemp (vars d') = boreholeTemp (vars d) /\
  aveFluidTemp (vars d') = aveFluidTemp (vars d) /\
  QGLHE (vars d') = QGLHE (vars d).
Proof.
  unfold getAnnualTimeConstant. destruct (kind d) eqn:E; cbn; rewrite ?E; tauto.
Qed.

Lemma advanceClock_time (e : Env) (sh : Shared) (d : GLHE) :
  currentSimTime (fst (advanceClock e sh d)) = simTime e.
Proof. reflexivity. Qed.

Lemma advanceClock_vars (e : Env) (sh : Shared) (d : GLHE) :
  let v := vars (snd (advanceClock e sh d)) in
  massFlowRate v = massFlowRate (vars d) /\
  inletTemp v = inletNodeTemp e /\
  outletTemp v = outletTemp (vars d) /\
  boreholeTemp v = boreholeTemp (vars d) /\
  aveFluidTemp v = aveFluidTemp (vars d) /\
  QGLHE v = QGLHE (vars d).
Proof.
  unfold advanceClock. cbn [snd]. cbv zeta.
  match goal with |- context [vars (if ?c then _ else _)] => destruct c end;
    cbn [set_hist vars];
    pose proof (getAnnualTimeConstant_frame
                  (set_inletTemp (if firstTime sh then calcGFunctions d else d)
                                 (inletNodeTemp e))) as F;
    cbv zeta in F; decompose [and] F; clear F;
    repeat match goal with H : _ = _ |- _ => rewrite H; clear H end;
    cbn [set_inletTemp set_vars vars massFlowRate inletTemp outletTemp boreholeTemp
         aveFluidTemp QGLHE];
    destruct (firstTime sh); rewrite ?calcGFunctions_vars; tauto.
Qed.

Lemma calcHXResistance_frame (d : GLHE) :
  let d' := calcHXResistance d in
  kind d' = kind d /\ par d' = par d /\ tbl d' = tbl d /\ hist d' = hist d /\
  gFuncRuns d' = gFuncRuns d /\ responseRuns d' = responseRuns d /\
  massFlowRate (vars d') = massFlowRate (vars d) /\
  timeSSFactor (vars d') = timeSSFactor (vars d) /\
  inletTemp (vars d') = inletTemp (vars d) /\
  outletTemp (vars d') = outletTemp (vars d) /\
  QGLHE (vars d') = QGLHE (vars d).
Proof.
  unfold calcHXResistance. cbn. tauto.
Qed.

Lemma pushStep_vars (sh : Shared) (d : GLHE) :
  let v := vars (snd (pushStep sh d)) in
  massFlowRate v = massFlowRate (vars d) /\
  inletTemp v = inletTemp (vars d) /\
  outletTemp v = outletTemp (vars d) /\
  QGLHE v = QGLHE (vars d).
Proof.
  unfold pushStep. cbn [snd]. cbv zeta.
  match goal with |- context [calcHXResistance ?x] =>
    pose proof (calcHXResistance_frame x) as F end.
  cbv zeta in F. decompose [and] F. clear F.
  repeat match goal with H : _ = _ |- _ => rewrite H; clear H end.
  cbn [set_hist vars].
  match goal with |- context [vars (if ?c then _ else _)] => destruct c end;
    cbn [set_hist vars]; tauto.
Qed.

End Frames.

(** ** C3: the zero-flow shortcut *)

Section Solver.
Context {CM : Cmath} {FL : Fluid}.

Lemma solve_zero_flow (sh : Shared) (d : GLHE) (cpFluid : Q) :
  massFlowRate (vars d) <= 0 ->
  let s := solve sh d cpFluid (kGroundFactor d) in
  tmpQnSubHourly s = 0 /\ ToutNew_ s = inletTemp (vars d) /\
  fluidAveTemp s == tempGround (par d) - historySum sh d /\
  sumTotal s == historySum sh d.
Proof.
  intro Hflow. apply Qle_bool_iff in Hflow.
  unfold solve, historySum, superposition, firstStep, explicitSolve.
  destruct (N sh =? 1)%Z.
  - rewrite Hflow. cbn. repeat split; ring.
  - destruct (Qlt_bool _ _); rewrite Hflow; cbn; repeat split; reflexivity.
Qed.

(** C3.  At a positive simulation time, when the mass flow rate of the
    device is zero or negative, the call leaves: a heat rate [QGLHE] of
    zero, an outlet temperature equal to the inlet temperature, and an
    average fluid temperature and a borehole temperature both equal to the
    ground temperature minus the superposed history sum (taken on the
    histories as the step has just updated them). *)
Theorem zero_flow_bypass (e : Env) (sh : Shared) (d : GLHE) :
  0 < simTime e ->
  massFlowRate (vars d) <= 0 ->
  let '(sh0, d0) := advanceClock e sh d in
  let '(sh1, d1) := pushStep sh0 d0 in
  let d' := snd (calcGroundHeatExchanger e sh d) in
  QGLHE (vars d') == 0 /\
  outletTemp (vars d') = inletTemp (vars d') /\
  inletTemp (vars d') = inletNodeTemp e /\
  aveFluidTemp (vars d') == tempGround (par d') - historySum sh1 d1 /\
  boreholeTemp (vars d') == tempGround (par d') - historySum sh1 d1.
Proof.
  intros Ht Hflow.
  unfold calcGroundHeatExchanger.
  pose proof (advanceClock_time e sh d) as Htime.
  pose proof (advanceClock_vars e sh d) as Hv0. cbv zeta in Hv0.
  destruct (advanceClock e sh d) as [sh0 d0]. cbn [fst snd] in Htime, Hv0.
  rewrite Htime. rewrite (proj2 (Qle_bool_false_iff _ _) Ht).
  pose proof (pushStep_vars sh0 d0) as Hv1. cbv zeta in Hv1.
  destruct (pushStep sh0 d0) as [sh1 d1]. cbn [fst snd] in Hv1.
  assert (Hflow1 : massFlowRate (vars d1) <= 0).
  { rewrite (proj1 Hv1), (proj1 Hv0). exact Hflow. }
  pose proof (solve_zero_flow sh1 d1 (GetSpecificHeatGlycol (inletTemp (vars d0))) Hflow1)
    as Hs.
  cbv zeta in Hs. destruct Hs as (Hq & Hout & Have & Hsum).
  unfold report. cbn. rewrite Hq, Hout.
  destruct Hv0 as (_ & Hin0 & _). destruct Hv1 as (_ & Hin1 & _).
  rewrite Hin1, Hin0.
  rewrite Hin0 in Have, Hsum.
  split; [ring|]. split; [reflexivity|]. split; [reflexivity|].
  split; [exact Have | rewrite Hsum; reflexivity].
Qed.

(** ** C4: the first step against the superposition on an empty history *)

Lemma search_comp (tb : Table) (fuel : nat) (x y : Q) (Low High Mid : Z) :
  x == y -> search tb fuel x Low High Mid = search tb fuel y Low High Mid.
Proof.
  intro H. revert Low High Mid.
  induction fuel as [|fuel IH]; intros Low High Mid; cbn [search]; [reflexivity|].
  destruct (Low <=? High)%Z; [|reflexivity]. cbv zeta.
  set (M := Z.quot (Low + High) 2).
  rewrite (Qlt_bool_comp _ _ (Qeq_refl (lntts tb M)) x y H).
  rewrite (Qlt_bool_comp x y H _ _ (Qeq_refl (lntts tb M))).
  destruct (Qlt_bool _ y); [apply IH|].
  destruct (Qlt_bool y _); [apply IH | reflexivity].
Qed.

#[global] Instance through_comp (tb : Table) :
  Proper (Qeq ==> eq ==> eq ==> Qeq) (through tb).
Proof.
  intros x y H i i' <- j j' <-. unfold through. now rewrite H.
Qed.

#[global] Instance interpGFunc_comp (tb : Table) : Proper (Qeq ==> Qeq) (interpGFunc tb).
Proof.
  intros x y H. unfold interpGFunc.
  rewrite (search_comp tb _ x y _ _ _ H).
  rewrite (Qleb_comp x y H _ _ (Qeq_refl (lntts tb 1))).
  rewrite (Qlt_bool_comp _ _ (Qeq_refl (lntts tb (NPairs tb))) x y H).
  destruct (Qle_bool y _); [now apply through_comp|].
  destruct (Qlt_bool _ y); [now apply through_comp|].
  destruct (search _ _ y _ _ _) as [[|] Mid]; [reflexivity|].
  rewrite (Qlt_bool_comp _ _ (Qeq_refl (lntts tb Mid)) x y H).
  destruct (Qlt_bool _ y); now apply through_comp.
Qed.

(** What the two branches share and where they part, for a positive flow
    and on an empty history ([sumTotal = 0], [QnSubHr( 1 ) = 0],
    [prevTimeSteps( 2 ) = 0]): the heat rate and the outlet temperature
    agree, the average fluid temperatures differ by the heat rate times the
    ground response [g / kGroundFactor]. *)
Lemma first_step_against_superposition (sh : Shared) (d : GLHE) (cpFluid k : Q) :
  Proper (Qeq ==> Qeq) ln ->
  0 < massFlowRate (vars d) -> 0 < cpFluid -> ~ totalTubeLength (par d) == 0 ->
  qnSubHr (hist d) 1 == 0 -> pts sh 2 == 0 ->
  let s1 := firstStep sh d cpFluid k in
  let s2 := explicitSolve sh d cpFluid k 0 in
  tmpQnSubHourly s1 == tmpQnSubHourly s2 /\
  ToutNew_ s1 == ToutNew_ s2 /\
  fluidAveTemp s1 - fluidAveTemp s2
  == tmpQnSubHourly s1 * RQ d k (currentSimTime sh).
Proof.
  intros Hln Hflow Hcp HL Hq Hp.
  assert (HRQ : RQ d k (currentSimTime sh - pts sh 2) == RQ d k (currentSimTime sh)).
  { unfold RQ. rewrite Hp.
    assert (E : (currentSimTime sh - 0) / timeSSFactor (vars d)
                == currentSimTime sh / timeSSFactor (vars d)).
    { apply Qmult_comp; [ring | reflexivity]. }
    now rewrite E. }
  unfold firstStep, explicitSolve.
  rewrite (proj2 (Qle_bool_false_iff _ _) Hflow).
  cbn [tmpQnSubHourly ToutNew_ fluidAveTemp]. cbv zeta.
  rewrite HRQ, Hq.
  fold (RQ d k (currentSimTime sh)).
  set (g := RQ d k (currentSimTime sh)).
  set (R := HXResistance (vars d)).
  set (L := totalTubeLength (par d)) in *.
  set (m := massFlowRate (vars d)) in *.
  assert (Hm : ~ m == 0) by lra.
  assert (Hc : ~ cpFluid == 0) by lra.
  assert (E3 : 1 / (m * cpFluid / L) == 2 * (L / (2 * m * cpFluid))).
  { field. repeat split; assumption. }
  assert (Eden : R + g - L / (2 * m * cpFluid) + 1 / (m * cpFluid / L)
                 == g + R + L / (2 * m * cpFluid)).
  { rewrite E3. ring. }
  rewrite Eden.
  set (q := (tempGround (par d) - inletTemp (vars d)) / (g + R + L / (2 * m * cpFluid))).
  assert (E1 : (tempGround (par d) - (0 - 0 * g) - inletTemp (vars d))
               / (g + R + L / (2 * m * cpFluid)) == q).
  { unfold q. apply Qmult_comp; [ring | reflexivity]. }
  rewrite E1.
  repeat split; ring.
Qed.

End Solver.



(** ** C2: a call at [currentSimTime <= 0] *)

Section Inactive.
Context {CM : Cmath} {FL : Fluid}.

(** The early return passes the inlet temperature through and leaves the
    other report variables, [QGLHE] among them, as they were. *)
Lemma inactive_call (e : Env) (sh : Shared) (d : GLHE) :
  simTime e <= 0 ->
  let d' := snd (calcGroundHeatExchanger e sh d) in
  outletTemp (vars d') = inletTemp (vars d') /\
  inletTemp (vars d') = inletNodeTemp e /\
  QGLHE (vars d') = QGLHE (vars d).
Proof.
  intro Ht. unfold calcGroundHeatExchanger.
  pose proof (advanceClock_time e sh d) as Htime.
  pose proof (advanceClock_vars e sh d) as Hv0. cbv zeta in Hv0.
  destruct (advanceClock e sh d) as [sh0 d0]. cbn [fst snd] in Htime, Hv0.
  rewrite Htime. rewrite (proj2 (Qle_bool_iff _ _) Ht).
  unfold inactive. cbn.
  destruct Hv0 as (_ & Hin & _ & _ & _ & HQ). rewrite Hin, HQ. tauto.
Qed.

End Inactive.

(** C2.  After a step that exchanged heat, a call at [currentSimTime = 0]
    (the first instant of the next environment) sets the outlet temperature
    to the inlet temperature and leaves the heat rate [QGLHE] of the
    earlier step in place: the heat rate is not zero after the call. *)
Theorem inactive_call_keeps_heat_rate :
  simTime exNewEnvironment <= 0 /\
  match exSecondCall with
  | Ok (M, _) =>
      let d := sub exFresh (verticalGLHE M) 1 in
      outletTemp (vars d) = inletTemp (vars d) /\ ~ QGLHE (vars d) == 0
  | Fatal _ => False
  end.
Proof.
  split; [discriminate|].
  vm_compute. split; [reflexivity | discriminate].
Qed.

(** ** C5: the hourly aggregation conserves energy *)

Lemma sum_over_energy (q t : Z -> Q) (n : Z) :
  sum_over (for_range 1 n) (fun J => q J * Qabs (t J - t (J + 1)%Z))
  == energy q t (Z.to_nat n).
Proof.
  destruct (Z_lt_le_dec n 1) as [Hlt | Hge].
  - rewrite for_range_empty by lia. replace (Z.to_nat n) with O by lia. reflexivity.
  - rewrite <- (Z2Nat.id n) at 1 by lia.
    induction (Z.to_nat n) as [|k IH].
    + reflexivity.
    + rewrite sum_over_last by lia.
      replace (Z.of_nat (S k) - 1)%Z with (Z.of_nat k) by lia.
      cbn [energy]. rewrite <- IH. reflexivity.
Qed.

Lemma J_final_pos (n : Z) : (0 <= n)%Z -> J_final n = (n + 1)%Z.
Proof. intro H. unfold J_final. lia. Qed.

(** Strictly decreasing time stamps span a positive time. *)
Lemma decreasing_span (t : Z -> Q) (n : nat) :
  (forall J, (1 <= J <= Z.of_nat n)%Z -> t (J + 1)%Z < t J) ->
  (1 <= n)%nat -> t (Z.of_nat n + 1)%Z < t 1%Z.
Proof.
  intros Hdec Hn. induction n as [|k IH]; [lia|].
  destruct k as [|k].
  - apply (Hdec 1%Z). lia.
  - apply Qlt_trans with (t (Z.of_nat (S k) + 1)%Z).
    + replace (Z.of_nat (S k) + 1)%Z with (Z.of_nat (S (S k))) by lia.
      apply Hdec. lia.
    + apply IH; [|lia]. intros J HJ. apply Hdec. lia.
Qed.

(** The value pushed into [QnHr] on an hour change. *)
Lemma calcAggregateLoad_new_hour (sh : Shared) (h : History) :
  0 < currentSimTime sh -> prevHour h <> locHourOfDay sh -> QnHr h <> [] ->
  qnHr (calcAggregateLoad sh h) 1 = SumQnHr sh h.
Proof.
  intros Ht Hhour Hal. unfold calcAggregateLoad.
  rewrite (proj2 (Qle_bool_false_iff _ _) Ht).
  rewrite (proj2 (Z.eqb_neq _ _) Hhour). cbn [negb]. cbv zeta.
  destruct (_ && true); cbn [QnHr qnHr]; unfold qnHr; cbn [QnHr];
    apply sub_eoshift_1; exact Hal.
Qed.

Lemma Qabs_eq_0 (x : Q) : Qabs x == 0 -> x == 0.
Proof.
  pattern (Qabs x). apply Qabs_case; intros; lra.
Qed.

(** The round trip for a time span that is not zero. *)
Lemma SumQnHr_round_trip (sh : Shared) (h : History) :
  let n := (N sh - lastHourN h 1)%Z in
  ~ pts sh 1 == pts sh (J_final n) ->
  SumQnHr sh h * Qabs (pts sh 1 - pts sh (J_final n))
  == energy (qnSubHr h) (pts sh) (Z.to_nat n).
Proof.
  intros n Hspan. unfold SumQnHr. fold n.
  unfold subHourlyEnergy. fold n. rewrite sum_over_energy.
  field. intro H0.
  apply Hspan. apply Qabs_eq_0 in H0. lra.
Qed.

(** C5.  On an hour change (at a positive simulation time, with [QnHr]
    allocated), when the [n >= 1] steps since the last hour change carry
    strictly decreasing time stamps, most recent first: the average pushed
    into [QnHr], times the time from the start of the hour to the current
    instant, is the sum over these steps of the sub-hourly load times the
    length of its own step. *)
Theorem hourly_aggregation_conserves_energy (sh : Shared) (h : History) :
  let n := (N sh - lastHourN h 1)%Z in
  0 < currentSimTime sh ->
  prevHour h <> locHourOfDay sh ->
  QnHr h <> [] ->
  (1 <= n)%Z ->
  (forall J, (1 <= J <= n)%Z -> pts sh (J + 1) < pts sh J) ->
  qnHr (calcAggregateLoad sh h) 1 * Qabs (pts sh 1 - pts sh (J_final n))
  == energy (qnSubHr h) (pts sh) (Z.to_nat n).
Proof.
  intros n Ht Hhour Hal Hn Hdec.
  rewrite (calcAggregateLoad_new_hour sh h Ht Hhour Hal).
  apply SumQnHr_round_trip. fold n.
  rewrite J_final_pos by lia.
  pose proof (decreasing_span (pts sh) (Z.to_nat n)) as Hs.
  rewrite Z2Nat.id in Hs by lia.
  specialize (Hs Hdec ltac:(lia)). lra.
Qed.

(** ** C7: a second call at the same time leaves the histories alone *)

Section Idempotence.
Context {CM : Cmath} {FL : Fluid}.

Lemma calcAggregateLoad_prevHour (sh : Shared) (h : History) :
  0 < currentSimTime sh -> prevHour (calcAggregateLoad sh h) = locHourOfDay sh.
Proof.
  intro Ht. unfold calcAggregateLoad.
  rewrite (proj2 (Qle_bool_false_iff _ _) Ht).
  destruct (prevHour h =? locHourOfDay sh)%Z eqn:E; cbn [negb]; cbv zeta.
  - rewrite andb_false_r. apply Z.eqb_eq in E. exact E.
  - reflexivity.
Qed.

Lemma calcAggregateLoad_same_hour (sh : Shared) (h : History) :
  prevHour h = locHourOfDay sh -> calcAggregateLoad sh h = h.
Proof.
  intro E. unfold calcAggregateLoad.
  destruct (Qle_bool (currentSimTime sh) 0); [reflexivity|].
  rewrite (proj2 (Z.eqb_eq _ _) E). cbn [negb]. cbv zeta.
  rewrite andb_false_r. reflexivity.
Qed.

Lemma fill_nonempty {A : Type} (a : list A) (v : A) : a <> [] -> fill a v <> [].
Proof. destruct a; [congruence | discriminate]. Qed.

Lemma simTime_sameClock (e1 e2 : Env) : sameClock e1 e2 -> simTime e2 = simTime e1.
Proof.
  intros (H & _). now symmetry.
Qed.

(** The flags after the first part of a call do not arm the reset for a
    call on the same clock. *)
Lemma advanceClock_disarms (e : Env) (sh : Shared) (d : GLHE) :
  let sh0 := fst (advanceClock e sh d) in
  (DayOfSim e =? 1)%Z
  && (if triggerDesignDayReset sh0 && WarmupFlag e then true else updateCurSimTime sh0)
  = false.
Proof.
  unfold advanceClock. cbn [fst triggerDesignDayReset updateCurSimTime].
  destruct (DayOfSim e =? 1)%Z eqn:E; [|reflexivity].
  apply Z.eqb_eq in E. rewrite E. cbn [Z.ltb Z.compare andb].
  destruct (triggerDesignDayReset sh), (WarmupFlag e), (updateCurSimTime sh); reflexivity.
Qed.

Lemma calc_settles (e : Env) (sh : Shared) (d : GLHE) :
  0 < simTime e -> prevTimeSteps sh <> [] ->
  settled e (fst (calcGroundHeatExchanger e sh d)) (snd (calcGroundHeatExchanger e sh d)).
Proof.
  intros Ht Hal. unfold calcGroundHeatExchanger.
  assert (Hpts : prevTimeSteps (fst (advanceClock e sh d)) <> []).
  { unfold advanceClock. cbn [fst prevTimeSteps].
    match goal with |- (if ?c then _ else _) <> _ => destruct c end;
      [apply fill_nonempty|]; exact Hal. }
  pose proof (advanceClock_disarms e sh d) as Hflags. cbv zeta in Hflags.
  assert (Hfirst : firstTime (fst (advanceClock e sh d)) = false) by reflexivity.
  assert (Htime : currentSimTime (fst (advanceClock e sh d)) = simTime e) by reflexivity.
  assert (Hhour : locHourOfDay (fst (advanceClock e sh d))
                  = Qtrunc (mod_ (simTime e) hrsPerDay + 1)) by reflexivity.
  destruct (advanceClock e sh d) as [sh0 d0]. cbn [fst snd] in *.
  rewrite Htime. rewrite (proj2 (Qle_bool_false_iff _ _) Ht).
  unfold pushStep, report, settled.
  cbn [fst snd firstTime triggerDesignDayReset updateCurSimTime N PrevN pts
       prevTimeSteps hist set_hist count_response set_vars prevHour].
  unfold pts. cbn [prevTimeSteps].
  split; [exact Hfirst|]. split; [exact Hflags|].
  split; [|split].
  - rewrite Htime.
    destruct (Qeq_bool (sub 0 (prevTimeSteps sh0) 1) (simTime e)) eqn:E; cbn [negb].
    + exact E.
    + rewrite sub_eoshift_1 by exact Hpts. apply Qeq_bool_refl.
  - match goal with |- ?n = (if negb (?n =? ?p)%Z then _ else _) =>
      destruct (n =? p)%Z eqn:E; cbn [negb]; [apply Z.eqb_eq in E; exact E | reflexivity]
    end.
  - rewrite (proj1 (proj2 (proj2 (proj2 (calcHXResistance_frame _))))).
    cbn [hist set_hist].
    rewrite calcAggregateLoad_prevHour; cbn [currentSimTime locHourOfDay].
    + exact Hhour.
    + rewrite Htime. exact Ht.
Qed.

Lemma settled_call_idle (e e2 : Env) (sh : Shared) (d : GLHE) :
  settled e sh d -> sameClock e e2 -> 0 < simTime e ->
  let r := calcGroundHeatExchanger e2 sh d in
  historyState (fst r) (snd r) = historyState sh d.
Proof.
  intros (Hfirst & Hflags & Hstamp & HN & Hhour) Hclock Ht.
  pose proof (simTime_sameClock e e2 Hclock) as Htime.
  destruct Hclock as (_ & Hday & Hwarm).
  cbv zeta. unfold calcGroundHeatExchanger, advanceClock.
  rewrite Hfirst, <- Hday, <- Hwarm, Hflags, Htime.
  cbn [currentSimTime].
  rewrite (proj2 (Qle_bool_false_iff _ _) Ht).
  unfold pushStep, pts. cbn [prevTimeSteps currentSimTime N PrevN].
  unfold pts in Hstamp. rewrite Hstamp. cbn [negb].
  rewrite HN, Z.eqb_refl. cbn [negb].
  pose proof (getAnnualTimeConstant_frame (set_inletTemp d (inletNodeTemp e2))) as F.
  cbv zeta in F. destruct F as (_ & _ & _ & Fh & _).
  cbn [set_inletTemp set_vars hist] in Fh.
  rewrite calcAggregateLoad_same_hour.
  2:{ cbn [locHourOfDay]. rewrite Fh. exact Hhour. }
  unfold report, historyState.
  cbn [fst snd prevTimeSteps N hist count_response set_hist set_vars
       QnSubHr QnHr QnMonthlyAgg LastHourN prevHour].
  rewrite (proj1 (proj2 (proj2 (proj2 (calcHXResistance_frame _))))).
  cbn [hist set_hist]. rewrite Fh, ?HN. reflexivity.
Qed.

(** C7.  Two calls in a row at the same elapsed time (on the same day of
    the same phase of the simulation), that time being positive and
    [prevTimeSteps] being allocated: the second call leaves
    [prevTimeSteps], [N], [QnSubHr], [QnHr], [QnMonthlyAgg], [LastHourN]
    and [prevHour] as the first call left them, whatever the inlet
    temperature and the flow it is called with. *)
Theorem repeated_call_keeps_history (e1 e2 : Env) (sh : Shared) (d : GLHE) :
  sameClock e1 e2 ->
  0 < simTime e1 ->
  prevTimeSteps sh <> [] ->
  let r1 := calcGroundHeatExchanger e1 sh d in
  let r2 := calcGroundHeatExchanger e2 (fst r1) (snd r1) in
  historyState (fst r2) (snd r2) = historyState (fst r1) (snd r1).
Proof.
  intros Hclock Ht Hal. cbv zeta.
  apply (settled_call_idle e1 e2); [apply calc_settles | |]; assumption.
Qed.

End Idempotence.

(** ** C8: the one-time g-function calculation *)

Section Guard.
Context {CM : Cmath} {FL : Fluid}.

(** The guard [firstTime] belongs to the function, not to the device: a
    call runs [calcGFunctions] on its device exactly when no call, on any
    device, came before it. *)
Lemma gfunctions_guard (e : Env) (sh : Shared) (d : GLHE) :
  let r := calcGroundHeatExchanger e sh d in
  firstTime (fst r) = false /\
  gFuncRuns (snd r) = if firstTime sh then S (gFuncRuns d) else gFuncRuns d.
Proof.
  cbv zeta. unfold calcGroundHeatExchanger.
  assert (H0 : firstTime (fst (advanceClock e sh d)) = false) by reflexivity.
  assert (H1 : gFuncRuns (snd (advanceClock e sh d))
               = if firstTime sh then S (gFuncRuns d) else gFuncRuns d).
  { unfold advanceClock. cbn [snd].
    match goal with |- gFuncRuns (if ?c then _ else _) = _ => destruct c end;
      cbn [set_hist gFuncRuns];
      rewrite (proj1 (proj2 (proj2 (proj2 (proj2 (proj2 (getAnnualTimeConstant_frame _)))))));
      cbn [set_inletTemp set_vars gFuncRuns];
      destruct (firstTime sh); first [apply calcGFunctions_gFuncRuns | reflexivity]. }
  destruct (advanceClock e sh d) as [sh0 d0]. cbn [fst snd] in H0, H1.
  destruct (Qle_bool (currentSimTime sh0) 0).
  - unfold inactive. cbn. split; [exact H0 | exact H1].
  - unfold pushStep, report.
    cbn [fst snd firstTime count_response gFuncRuns set_hist set_vars].
    rewrite (proj1 (proj2 (proj2 (proj2 (proj2 (calcHXResistance_frame _)))))).
    cbn [set_hist gFuncRuns].
    split; [exact H0|].
    match goal with |- gFuncRuns (if ?c then _ else _) = _ => destruct c end; exact H1.
Qed.

End Guard.

(** C8.  With a borehole and a slinky in one run, called in that order: the
    slinky computes its first thermal response while its g-function
    calculation has never run and its table is empty. *)
Theorem second_device_runs_without_gfunctions :
  match exTwoDevices with
  | Ok (M, _) =>
      let b := sub exFresh (verticalGLHE M) 1 in
      let s := sub exFresh (slinkyGLHE M) 1 in
      gFuncRuns b = 1%nat /\ responseRuns b = 1%nat /\
      kind s = Slinky /\ responseRuns s = 1%nat /\ gFuncRuns s = 0%nat /\
      LNTTS (tbl s) = []
  | Fatal _ => False
  end.
Proof. vm_compute. repeat split. Qed.

(** ** C9: a pipe wall as thick as the pipe radius is a fatal input error *)

Section InputErrors.
Context {CM : Cmath} {FL : Fluid} (fresh : GLHE).

Lemma loadAll_fatal (load : Loading -> IDFObject -> Outcome Loading)
  (bad : IDFObject -> Prop) (objs : list IDFObject) (o : IDFObject) :
  (forall st o', bad o' -> exists msg, load st o' = Fatal msg) ->
  In o objs -> bad o ->
  forall st, exists msg, loadAll load st objs = Fatal msg.
Proof.
  intros Hload Hin Hbad.
  induction objs as [|o' objs IH]; intro st; [contradiction|].
  cbn [loadAll]. destruct Hin as [-> | Hin].
  - destruct (Hload st o Hbad) as [msg ->]. exists msg. reflexivity.
  - destruct (load st o') as [st'|msg]; cbn [bind].
    + apply IH. exact Hin.
    + exists msg. reflexivity.
Qed.

Lemma loadVertical_thick_pipe (inp : Input) (st : Loading) (o : IDFObject) :
  num o 12 >= num o 10 / 2 -> exists msg, loadVertical fresh inp st o = Fatal msg.
Proof.
  intro H. apply Qle_bool_iff in H. unfold loadVertical, pipeRadiusError.
  rewrite H, orb_true_r. eexists. reflexivity.
Qed.

Lemma loadSlinky_thick_pipe (inp : Input) (st : Loading) (o : IDFObject) :
  num o 9 >= num o 8 / 2 -> exists msg, loadSlinky fresh inp st o = Fatal msg.
Proof.
  intro H. apply Qle_bool_iff in H. unfold loadSlinky, pipeRadiusError.
  rewrite H, orb_true_r.
  destruct (if blank o 16 || blank o 17 || blank o 18 then _ else _) as [[[avg amp] mth] mn].
  eexists. reflexivity.
Qed.

Lemma GetGroundHeatExchangerInput_thick_pipe (inp : Input) (M : Module) :
  thickPipe inp -> exists msg, GetGroundHeatExchangerInput fresh inp M = Fatal msg.
Proof.
  intro Hbad. unfold GetGroundHeatExchangerInput. cbv zeta.
  destruct Hbad as [(o & Hin & Ho) | (o & Hin & Ho)].
  - destruct (loadAll_fatal (loadVertical fresh inp)
                (fun o => num o 12 >= num o 10 / 2) _ o
                (fun st o' => loadVertical_thick_pipe inp st o') Hin Ho
                (mkLoading
                   (if ((Z.of_nat (List.length (verticalObjects inp)) <=? 0)
                        && (Z.of_nat (List.length (slinkyObjects inp)) <=? 0))%Z
                    then true else inputErrors M)
                   (prevTimeSteps (shared M)) false [])) as [msg ->].
    exists msg. reflexivity.
  - destruct (loadAll (loadVertical fresh inp) _ (verticalObjects inp)) as [stV|msg];
      cbn [bind]; [|exists msg; reflexivity].
    destruct (loadAll_fatal (loadSlinky fresh inp)
                (fun o => num o 9 >= num o 8 / 2) _ o
                (fun st o' => loadSlinky_thick_pipe inp st o') Hin Ho
                (mkLoading (errorsFound stV) (ld_prevTimeSteps stV) false [])) as [msg ->].
    exists msg. reflexivity.
Qed.

(** C9.  When an input object has a pipe wall at least as thick as the
    outer radius of the pipe, the input routine ends in a fatal error, and
    so does the first call of [SimGroundHeatExchangers], which reads the
    input before it simulates any device: no device is initialised or
    simulated. *)
Theorem thick_pipe_is_fatal (inp : Input) (M : Module) :
  thickPipe inp ->
  (exists msg, GetGroundHeatExchangerInput fresh inp M = Fatal msg) /\
  (GetInput M = true ->
   forall (e : Env) (type nm : string) (compIndex : Z) (initLoopEquip : bool),
   exists msg,
     SimGroundHeatExchangers fresh inp e type nm compIndex initLoopEquip M = Fatal msg).
Proof.
  intro Hbad.
  destruct (GetGroundHeatExchangerInput_thick_pipe inp M Hbad) as [msg Hmsg].
  split; [exists msg; exact Hmsg|].
  intros HG e type nm compIndex initLoopEquip.
  unfold SimGroundHeatExchangers. rewrite HG, Hmsg. cbn [bind].
  exists msg. reflexivity.
Qed.

End InputErrors.

(** ** C10: the log-time grid of the slinky g-functions *)

Lemma upd_nat_length {A : Type} (a : list A) (n : nat) (v : A) :
  List.length (upd_nat a n v) = List.length a.
Proof.
  revert n. induction a as [|x a IH]; intro n; [reflexivity|].
  destruct n; cbn [upd_nat List.length]; [reflexivity | now rewrite IH].
Qed.

Lemma nth_upd_nat {A : Type} (a : list A) (n k : nat) (v d : A) :
  nth k (upd_nat a n v) d
  = if ((k =? n) && (n <? List.length a))%nat then v else nth k a d.
Proof.
  revert n k. induction a as [|x a IH]; intros n k.
  - cbn [upd_nat List.length]. rewrite andb_false_r. reflexivity.
  - destruct n, k; cbn [upd_nat nth List.length]; try reflexivity.
    rewrite IH. reflexivity.
Qed.

Lemma upd_length {A : Type} (a : list A) (i : Z) (v : A) :
  List.length (upd a i v) = List.length a.
Proof.
  unfold upd. destruct (i <? 1)%Z; [reflexivity | apply upd_nat_length].
Qed.

(** Reading an array after a write. *)
Lemma sub_upd {A : Type} (a : list A) (i j : Z) (v d : A) :
  (1 <= j)%Z ->
  sub d (upd a i v) j
  = if ((j =? i) && (i <=? Z.of_nat (List.length a)))%Z then v else sub d a j.
Proof.
  intro Hj. unfold sub, upd.
  destruct (j <? 1)%Z eqn:E1; [apply Z.ltb_lt in E1; lia|].
  destruct (i <? 1)%Z eqn:E2.
  - apply Z.ltb_lt in E2.
    destruct (j =? i)%Z eqn:E3; [apply Z.eqb_eq in E3; lia | reflexivity].
  - apply Z.ltb_ge in E2. rewrite nth_upd_nat.
    destruct (j =? i)%Z eqn:E3.
    + apply Z.eqb_eq in E3. subst j. rewrite Nat.eqb_refl. cbn [andb].
      destruct (i <=? Z.of_nat (List.length a))%Z eqn:E4.
      * apply Z.leb_le in E4.
        rewrite (proj2 (Nat.ltb_lt _ _)) by lia. reflexivity.
      * apply Z.leb_gt in E4.
        rewrite (proj2 (Nat.ltb_ge _ _)) by lia. reflexivity.
    + apply Z.eqb_neq in E3.
      rewrite (proj2 (Nat.eqb_neq _ _)) by lia. reflexivity.
Qed.

Section Grid.
Context {CM : Cmath} {FL : Fluid}.

(** The loop over [NT] writes [tLg( NT )] at each index of its range and
    leaves the rest of the column [LNTTS] alone. *)
Lemma gridPoint_loop (d : GLHE) (numRC numLC : Z) (fraction : Q) (n : nat) :
  forall (lo : Z) (cols : list Q * list Q),
  (1 <= lo)%Z ->
  let cols' := fold_left (gridPoint d numRC numLC fraction) (zrange lo n) cols in
  List.length (fst cols') = List.length (fst cols) /\
  forall NT, (1 <= NT <= Z.of_nat (List.length (fst cols)))%Z ->
    sub 0 (fst cols') NT
    = if ((lo <=? NT) && (NT <? lo + Z.of_nat n))%Z then tLg NT else sub 0 (fst cols) NT.
Proof.
  induction n as [|n IH]; intros lo cols Hlo; cbn [zrange fold_left]; cbv zeta.
  - split; [reflexivity|]. intros NT HNT.
    destruct (lo <=? NT)%Z eqn:E1, (NT <? lo + Z.of_nat 0)%Z eqn:E2; try reflexivity.
    apply Z.leb_le in E1. apply Z.ltb_lt in E2. lia.
  - specialize (IH (lo + 1)%Z (gridPoint d numRC numLC fraction cols lo) ltac:(lia)).
    cbv zeta in IH. destruct IH as [IHlen IHsub].
    assert (Hlen1 : List.length (fst (gridPoint d numRC numLC fraction cols lo))
                    = List.length (fst cols)).
    { unfold gridPoint. cbn [fst]. apply upd_length. }
    split; [now rewrite IHlen|].
    intros NT HNT. rewrite IHsub by (rewrite Hlen1; exact HNT).
    unfold gridPoint at 1. cbn [fst]. rewrite sub_upd by lia.
    repeat match goal with
           | |- context [(?a =? ?b)%Z] =>
               let E := fresh "E" in
               destruct (a =? b)%Z eqn:E;
               [apply Z.eqb_eq in E | apply Z.eqb_neq in E]
           | |- context [(?a <=? ?b)%Z] =>
               let E := fresh "E" in
               destruct (a <=? b)%Z eqn:E;
               [apply Z.leb_le in E | apply Z.leb_gt in E]
           | |- context [(?a <? ?b)%Z] =>
               let E := fresh "E" in
               destruct (a <? b)%Z eqn:E;
               [apply Z.ltb_lt in E | apply Z.ltb_ge in E]
           end; cbn [andb]; try reflexivity; try lia; subst; reflexivity.
Qed.

(** For a value that is not negative, [int( x )] is the integer part. *)
Lemma Qtrunc_bounds (x : Q) :
  0 <= x -> to_real (Qtrunc x) <= x /\ x < to_real (Qtrunc x) + 1.
Proof.
  intro Hx.
  assert (E : Qtrunc x = Qfloor x).
  { unfold Qtrunc, Qfloor. destruct x as [a b]. cbn [Qnum Qden].
    apply Z.quot_div_nonneg; [|reflexivity].
    unfold Qle in Hx. cbn in Hx. lia. }
  rewrite E. unfold to_real. split; [apply Qfloor_le|].
  pose proof (Qlt_floor x) as H. rewrite inject_Z_plus in H. exact H.
Qed.

(** C10.  [GLHESlinky::calcGFunctions] turns the maximum number of
    simulated years into seconds with a year of 356 days
    ([356 * 24 * 60 * 60] seconds, which is not the [365 * 24 * 60 * 60] of
    a calendar year): the log-time grid starts at -2, has the step 0.25,
    and its size is
    [NPairs = int( ( tLg_max - ( -2 ) ) / 0.25 + 1 )] with
    [tLg_max = log10( maxSimYears * 356 * 24 * 60 * 60 / 3600 )]; the entry
    [NT] of [LNTTS] is [-2 + 0.25 * ( NT - 1 )], and the last entry lies
    less than one step below [tLg_max] (when [tLg_max] is not below -2). *)
Theorem slinky_grid_uses_356_day_year (d : GLHE) :
  let d' := calcGFunctions_Slinky d in
  let tmax := log10 (maxSimYears (par d) * to_real (356 * 24 * 60 * 60) / 3600) in
  convertYearsToSeconds = to_real (356 * 24 * 60 * 60) /\
  ~ convertYearsToSeconds == to_real (365 * 24 * 60 * 60) /\
  tLg_max (par d) = tmax /\
  NPairs (tbl d') = Qtrunc ((tmax - -(2)) / (1#4) + 1) /\
  List.length (LNTTS (tbl d')) = Z.to_nat (NPairs (tbl d')) /\
  (forall NT, (1 <= NT <= NPairs (tbl d'))%Z ->
     lntts (tbl d') NT = -(2) + (1#4) * to_real (NT - 1)) /\
  (-(2) <= tmax ->
   (1 <= NPairs (tbl d'))%Z /\
   lntts (tbl d') (NPairs (tbl d')) <= tmax /\
   tmax < lntts (tbl d') (NPairs (tbl d')) + (1#4)).
Proof.
  cbv zeta.
  split; [reflexivity|]. split; [discriminate|]. split; [reflexivity|].
  unfold calcGFunctions_Slinky. cbv zeta. cbn [tbl set_tbl NPairs LNTTS].
  split; [reflexivity|].
  rewrite <- and_assoc.
  match goal with |- ?A /\ ?B => assert (HA : A); [|split; [exact HA|]] end.
  2:{ destruct HA as [_ Hentry]. intro Hmax.
      set (np := Qtrunc ((tLg_max (par d) - tLg_min) / tLg_grid + 1)) in *.
      assert (Hy : 0 <= (tLg_max (par d) - tLg_min) / tLg_grid + 1).
      { unfold tLg_min, tLg_grid. unfold tLg_max, convertYearsToSeconds, ts.
        assert (E : forall z, (z - -(2)) / (1#4) + 1 == 4 * z + 9) by (intro z; field).
        rewrite E. lra. }
      destruct (Qtrunc_bounds _ Hy) as [Hlo Hhi]. fold np in Hlo, Hhi.
      assert (E : (tLg_max (par d) - tLg_min) / tLg_grid + 1
                  == 4 * tLg_max (par d) + 9) by (unfold tLg_min, tLg_grid; field).
      rewrite E in Hlo, Hhi.
      assert (Hnp : (1 <= np)%Z).
      { assert (H1 : inject_Z 0 < inject_Z np).
        { unfold to_real in Hhi.
          change (to_real np) with (inject_Z np) in *.
          unfold tLg_max, convertYearsToSeconds, ts in *.
          change (inject_Z 0) with 0. lra. }
        rewrite <- Zlt_Qlt in H1. lia. }
      split; [exact Hnp|].
      rewrite (Hentry np) by lia.
      unfold to_real in *. rewrite <- to_real_sub. unfold to_real.
      change (inject_Z 1) with 1.
      unfold tLg_max, convertYearsToSeconds, ts in *. unfold to_real in *.
      split; lra. }
  set (np := Qtrunc ((tLg_max (par d) - tLg_min) / tLg_grid + 1)).
  match goal with
  | |- context [fold_left (gridPoint ?dd ?rc ?lc ?fr) (for_range 1 np) ?c] =>
      pose proof (gridPoint_loop dd rc lc fr (Z.to_nat (np - 1 + 1)) 1 c ltac:(lia)) as H
  end.
  cbv zeta in H. change (zrange 1 (Z.to_nat (np - 1 + 1))) with (for_range 1 np) in H.
  destruct H as [Hlen Hsub].
  split.
  - rewrite Hlen. cbn [fst]. unfold dimension. apply repeat_length.
  - intros NT HNT. unfold lntts. cbn [LNTTS].
    rewrite Hsub.
    + rewrite (proj2 (Z.leb_le 1 NT)) by lia.
      rewrite (proj2 (Z.ltb_lt NT _)) by lia. reflexivity.
    + cbn [fst]. unfold dimension. rewrite repeat_length. lia.
Qed.

End Grid.

(** ** C6: the contribution of a pair of rings, by distance *)





Section Rings.
Context {CM : Cmath} {FL : Fluid}.
Hypothesis sqrt_comp : Proper (Qeq ==> Qeq) sqrt.

Variable d : GLHE.
Hypothesis Hplaced : placed d.






Lemma storedFrom_init (t : Q) : storedFrom d t (fun _ _ => -(1)).
Proof.
  intros a b H. exfalso. revert H. apply Qlt_not_le. reflexivity.
Qed.

Lemma storedFrom_store (t : Q) (vs : Stored) (m n m1 n1 : Z) :
  inField d m n -> inField d m1 n1 -> storedFrom d t vs ->
  storedFrom d t (store vs (Z.abs (m - m1)) (Z.abs (n - n1)) (ringValue d t m n m1 n1)).
Proof.
  intros H1 H2 Hinv a b. unfold store.
  destruct ((a =? Z.abs (m - m1)) && (b =? Z.abs (n - n1)))%Z eqn:E.
  - apply andb_prop in E. destruct E as [Ea Eb].
    apply Z.eqb_eq in Ea, Eb. subst a b. intros _.
    exists m, n, m1, n1. repeat split; try apply H1; try apply H2.
  - apply Hinv.
Qed.

(** The invariant holds after the body of the innermost loop. *)
Lemma ringContribution_storedFrom (numRC numLC : Z) (t : Q) (vs : Stored)
  (m1 n1 m n : Z) :
  inField d m n -> inField d m1 n1 -> storedFrom d t vs ->
  storedFrom d t (snd (ringContribution d numRC numLC t vs m1 n1 m n)).
Proof.
  intros H1 H2 Hinv.
  pose proof (storedFrom_store t vs m n m1 n1 H1 H2 Hinv) as Hst.
  unfold ringValue in Hst. unfold ringContribution.
  rewrite (surjective_pairing (nodes m n m1 n1)).
  destruct (Qle_bool (distToCenter d m n m1 n1) ((5#2) + coilDiameter (par d))).
  - destruct (Qlt_bool _ 0); cbn [snd]; assumption.
  - destruct (Qlt_bool (10 + coilDiameter (par d)) _); [exact Hinv|].
    destruct (Qlt_bool _ 0); cbn [snd]; assumption.
Qed.

Lemma fold_left_invariant {A B : Type} (P : A -> Prop) (f : A -> B -> A)
  (l : list B) (a : A) :
  P a -> (forall a' b, In b l -> P a' -> P (f a' b)) -> P (fold_left f l a).
Proof.
  revert a. induction l as [|b l IH]; intros a Ha Hf; cbn [fold_left]; [exact Ha|].
  apply IH.
  - apply Hf; [left; reflexivity | exact Ha].
  - intros a' b' Hin. apply Hf. right. exact Hin.
Qed.

(** The invariant holds all along the four loops, when the quarter of the
    field they run over lies in the field. *)
Lemma fieldResponse_storedFrom (numRC numLC : Z) (t : Q) :
  (forall m1, (1 <= m1 <= numRC)%Z -> (m1 <= numTrenches (par d))%Z) ->
  (forall n1, (1 <= n1 <= numLC)%Z -> (n1 <= numCoils (par d))%Z) ->
  storedFrom d t (snd (fieldResponse d numRC numLC t)).
Proof.
  intros HRC HLC. unfold fieldResponse.
  apply (fold_left_invariant (fun st => storedFrom d t (snd st)));
    [apply storedFrom_init|].
  intros st1 m1 Hm1 Hst1. apply in_for_range in Hm1.
  apply (fold_left_invariant (fun st => storedFrom d t (snd st))); [exact Hst1|].
  intros st2 n1 Hn1 Hst2. apply in_for_range in Hn1.
  apply (fold_left_invariant (fun st => storedFrom d t (snd st))); [exact Hst2|].
  intros st3 m Hm Hst3. apply in_for_range in Hm.
  apply (fold_left_invariant (fun st => storedFrom d t (snd st))); [exact Hst3|].
  intros st4 n Hn Hst4. apply in_for_range in Hn.
  unfold ringStep.
  pose proof (ringContribution_storedFrom numRC numLC t (snd st4) m1 n1 m n) as H.
  destruct (ringContribution d numRC numLC t (snd st4) m1 n1 m n) as [g vs'].
  cbn [snd] in *. apply H; [| |exact Hst4]; split; try lia.
  - specialize (HRC m1 Hm1). lia.
  - specialize (HLC n1 Hn1). lia.
Qed.


End Rings.

(** The quarter of the field that the loops of [calcGFunctions] run over
    lies in the field. *)
Lemma half_in_field (k i : Z) :
  (1 <= i <= Qtrunc (ceil (to_real k / 2)))%Z -> (i <= k)%Z.
Proof.
  unfold ceil, Qtrunc, to_real. cbn [Qnum Qden inject_Z]. rewrite Z.quot_1_r.
  intro Hi.
  destruct (Z_lt_le_dec k 0) as [Hneg | Hpos].
  - exfalso.
    assert (H : (Qceiling (inject_Z k / 2) <= Qceiling 0)%Z).
    { apply Qceiling_resp_le.
      assert (inject_Z k < 0).
      { change (inject_Z k < inject_Z 0). rewrite <- Zlt_Qlt. exact Hneg. }
      apply Qle_shift_div_r; [reflexivity | lra]. }
    change (Qceiling 0) with 0%Z in H. lia.
  - assert (H : (Qceiling (inject_Z k / 2) <= Qceiling (inject_Z k))%Z).
    { apply Qceiling_resp_le.
      assert (0 <= inject_Z k).
      { change (inject_Z 0 <= inject_Z k). rewrite <- Zle_Qle. exact Hpos. }
      apply Qle_shift_div_r; [reflexivity | lra]. }
    rewrite Qceiling_Z in H. lia.
Qed.

(** In [calcGFunctions] the ring centres are placed before the loops, and
    the stored values keep their invariant through the loops. *)
Lemma calcGFunctions_loops (CM : Cmath) (d : GLHE) (t : Q) :
  Proper (Qeq ==> Qeq) sqrt ->
  let p := par d in
  let d1 :=
    set_rings d
      (mkRings (map (fun coil => coilPitch p * to_real (coil - 1))
                    (for_range 1 (numCoils p)))
               (map (fun trench => to_real (trench - 1) * trenchSpacing p)
                    (for_range 1 (numTrenches p)))
               (coilDepth p)) in
  placed d1 /\
  storedFrom d1 t
    (snd (fieldResponse d1 (Qtrunc (ceil (to_real (numTrenches p) / 2)))
                        (Qtrunc (ceil (to_real (numCoils p) / 2))) t)).
Proof.
  intros Hs. cbv zeta.
  assert (Hp : placed (set_rings d
      (mkRings (map (fun coil => coilPitch (par d) * to_real (coil - 1))
                    (for_range 1 (numCoils (par d))))
               (map (fun trench => to_real (trench - 1) * trenchSpacing (par d))
                    (for_range 1 (numTrenches (par d))))
               (coilDepth (par d))))) by (split; reflexivity).
  split; [exact Hp|].
  apply fieldResponse_storedFrom; try assumption; cbn [par set_rings];
    intros i Hi; exact (half_in_field _ _ Hi).
Qed.

(** ** The theorems at work on the small installation *)

#[local] Existing Instance exCmath.
#[local] Existing Instance exFluid.

Lemma exTable_well_formed : well_formed exTable.
Proof.
  split; [discriminate|].
  intros i j Hi Hij Hj. cbn [NPairs exTable] in Hj.
  assert (Hc : (i = 1 /\ j = 2 \/ i = 1 /\ j = 3 \/ i = 2 /\ j = 3)%Z) by lia.
  destruct Hc as [[-> ->] | [[-> ->] | [-> ->]]]; reflexivity.
Qed.

Lemma interpGFunc_linear_law_witness :
  well_formed exTable /\
  on_line 0 0 1 10 (1#2) (interpGFunc exTable (1#2)) /\
  interpGFunc exTable 1 == 10 /\
  on_line 0 0 1 10 (-(1)) (interpGFunc exTable (-(1))) /\
  on_line 1 10 2 40 3 (interpGFunc exTable 3).
Proof.
  split; [exact exTable_well_formed|].
  split.
  - apply (proj1 (interpGFunc_linear_law exTable (1#2) exTable_well_formed) 1%Z);
      [split; [discriminate | reflexivity] | reflexivity | reflexivity].
  - split.
    + apply (proj1 (proj2 (interpGFunc_linear_law exTable 1 exTable_well_formed)) 2%Z);
        [split; discriminate | reflexivity].
    + split.
      * apply (proj1 (proj2 (proj2 (interpGFunc_linear_law exTable (-(1))
                                      exTable_well_formed)))).
        reflexivity.
      * apply (proj2 (proj2 (proj2 (interpGFunc_linear_law exTable 3
                                      exTable_well_formed)))).
        reflexivity.
Defined.

Lemma zero_flow_bypass_witness :
  0 < simTime (exRunning 2 0) /\
  massFlowRate (vars exStagnant) <= 0 /\
  let d' := snd (@calcGroundHeatExchanger exCmath exFluid (exRunning 2 0)
                   exShared exStagnant) in
  QGLHE (vars d') == 0 /\ outletTemp (vars d') = inletTemp (vars d').
Proof.
  assert (H1 : 0 < simTime (exRunning 2 0)) by reflexivity.
  assert (H2 : massFlowRate (vars exStagnant) <= 0) by discriminate.
  split; [exact H1|]. split; [exact H2|].
  pose proof (@zero_flow_bypass exCmath exFluid (exRunning 2 0) exShared exStagnant H1 H2)
    as H.
  destruct (@advanceClock exCmath (exRunning 2 0) exShared exStagnant) as [sh0 d0].
  destruct (@pushStep exCmath exFluid sh0 d0) as [sh1 d1].
  cbv zeta in H. cbv zeta.
  split; [exact (proj1 H) | exact (proj1 (proj2 H))].
Defined.

Lemma hourly_aggregation_conserves_energy_witness :
  qnHr (calcAggregateLoad exHour exHistory) 1 * Qabs (pts exHour 1 - pts exHour 2)
  == energy (qnSubHr exHistory) (pts exHour) 1.
Proof.
  apply (hourly_aggregation_conserves_energy exHour exHistory).
  - reflexivity.
  - discriminate.
  - discriminate.
  - discriminate.
  - intros J HJ. cbn in HJ. assert (J = 1%Z) as -> by lia. reflexivity.
Defined.




Lemma repeated_call_keeps_history_witness :
  sameClock (exRunning 2 (1#5)) exIteration /\
  let r1 := @calcGroundHeatExchanger exCmath exFluid (exRunning 2 (1#5))
              exShared exDevice in
  let r2 := @calcGroundHeatExchanger exCmath exFluid exIteration (fst r1) (snd r1) in
  historyState (fst r2) (snd r2) = historyState (fst r1) (snd r1).
Proof.
  assert (Hc : sameClock (exRunning 2 (1#5)) exIteration) by (repeat split; reflexivity).
  split; [exact Hc|].
  apply (@repeated_call_keeps_history exCmath exFluid (exRunning 2 (1#5)) exIteration
           exShared exDevice Hc).
  - reflexivity.
  - discriminate.
Defined.

Lemma thick_pipe_is_fatal_witness :
  thickPipe (exInput [exThickPipeObject] []) /\
  exists msg,
    @SimGroundHeatExchangers exCmath exFluid exFresh (exInput [exThickPipeObject] [])
      (exRunning 2 (1#5)) VERTICAL "Borehole" 0 false (@initialModule) = Fatal msg.
Proof.
  assert (Hbad : thickPipe (exInput [exThickPipeObject] [])).
  { left. exists exThickPipeObject. split; [left; reflexivity | discriminate]. }
  split; [exact Hbad|].
  apply (proj2 (@thick_pipe_is_fatal exCmath exFluid exFresh
                  (exInput [exThickPipeObject] []) (@initialModule) Hbad)).
  reflexivity.
Defined.

Lemma slinky_grid_uses_356_day_year_witness :
  -(2) <= tLg_max (par exField) /\
  lntts (tbl (calcGFunctions_Slinky exField)) (NPairs (tbl (calcGFunctions_Slinky exField)))
  <= tLg_max (par exField).
Proof.
  assert (H : -(2) <= tLg_max (par exField)) by (vm_compute; discriminate).
  split; [exact H|].
  apply (proj2 (proj2 (proj2 (proj2 (proj2 (proj2
           (slinky_grid_uses_356_day_year exField))))))).
  exact H.
Defined.
